(** * Context currency of the ogl wrapper (src/context.cpp)

    A shallow embedding of [gl::Context], [gl::Context_impl] and its two
    subclasses [MonoContext_impl] and [MultiContext_impl], together with the
    typed parameter reader [gl::get].

    The C++ code is stateful: it mutates two class-static registries, reads
    fields of heap objects, calls into the GL driver and throws exceptions.
    It is modelled by a state-and-exception monad [M] over an explicit
    [state] that holds the object heap, both registries and a trace of the
    observable actions (hook invocations, registry writes, lock operations,
    driver calls) in the order in which the code performs them. *)

From stdpp Require Import gmap strings list.
From Stdlib Require Import ZArith.

Local Open Scope Z_scope.

(** ** Data model *)

(** Address of a [Context_impl] object.  A pointer [Context_impl*] is an
    [option addr]: [None] is [nullptr], and [this] is never null. *)
Abbreviation addr := positive (only parsing).

(** [std::thread::id]. *)
Abbreviation thread_id := nat (only parsing).

Abbreviation GLenum := Z (only parsing).
Abbreviation GLbitfield := Z (only parsing).

(** The dynamic class of an implementation object.  [Context_impl] itself is
    abstract (its destructor is pure virtual), so every live object is of one
    of the two subclasses; a [MultiContext_impl] carries its [_thread_id]. *)
Inductive impl_class :=
| Mono
| Multi (_thread_id : thread_id).

(** Fields of [Context_impl].  [_context] is the back reference to the facade
    that owns the object; facade and implementation object are in one-to-one
    correspondence and are identified here by the address of the latter. *)
Record Context_impl := mk_impl {
  _clear_mask : GLbitfield;
  _handle : Z;
  dyn : impl_class;
}.

(** [gl::color]: four floats, each kept as its IEEE-754 bit pattern (the code
    only moves them around). *)
Record color := mk_color { col_r : Z; col_g : Z; col_b : Z; col_a : Z }.

(** Calls into the native driver. *)
Inductive gl_call :=
| glClear (mask : GLbitfield)
| glClearColor (r g b a : Z)
| glEnable (cap : GLenum)
| glDisable (cap : GLenum)
| glIsEnabled (cap : GLenum)
| glGetIntegerv (param : GLenum)
| glGetInteger64v (param : GLenum)
| glGetBooleanv (param : GLenum)
| glGetDoublev (param : GLenum)
| glGetFloatv (param : GLenum).

(** Observable actions, logged in program order. *)
Inductive event :=
| EvHook (callee : addr)                        (* callee->on_made_not_current() *)
| EvStoreMono (p : option addr)                 (* MonoContext_impl::current_context = p *)
| EvStoreMulti (t : thread_id) (p : option addr) (* current_context[t] = p *)
| EvEraseMulti (t : thread_id)                  (* current_context.erase(t) *)
| EvLock (t : thread_id)                        (* current_context_lock acquired by t *)
| EvUnlock (t : thread_id)                      (* ... and released *)
| EvGL (c : gl_call).

Global Instance impl_class_eq_dec : EqDecision impl_class.
Proof. solve_decision. Defined.
Global Instance gl_call_eq_dec : EqDecision gl_call.
Proof. solve_decision. Defined.
Global Instance event_eq_dec : EqDecision event.
Proof. solve_decision. Defined.

(** [gl::exception(what)] is the only exception type the file throws itself;
    [driver_error] is what the error-checking wrapper around driver calls
    raises (see [GL_CALL]). *)
Inductive exception :=
| gl_exception (what : string)
| driver_error (code : GLenum).

Record state := mk_state {
  heap : gmap addr Context_impl;                  (* live implementation objects *)
  mono_current : option addr;                     (* MonoContext_impl::current_context *)
  multi_current : gmap thread_id (option addr);   (* MultiContext_impl::current_context *)
  trace : list event;
}.

(** Process start: no objects, [current_context { 0 }], an empty map. *)
Definition init_state : state :=
  {| heap := ∅; mono_current := None; multi_current := ∅; trace := [] |}.

(** What the driver does for one call: the values it writes through the out
    pointer of a query, the value it returns, and the error it signals
    ([0] is [GL_NO_ERROR]). *)
Record reply := mk_reply {
  written : list Z;
  returned : Z;
  error : GLenum;
}.

(** The part of the GL headers and of the driver that context.cpp uses but
    does not define: three constants and the driver's answer to a call, which
    may depend on everything that happened before. *)
Record Driver := mk_driver {
  GL_COLOR_BUFFER_BIT : GLbitfield;
  GL_MAJOR_VERSION : GLenum;
  GL_MINOR_VERSION : GLenum;
  drv_reply : list event -> gl_call -> reply;
}.

(** ** The monad *)

Inductive result (A : Type) :=
| Ok (a : A) (s : state)            (* normal return *)
| Throw (e : exception) (s : state) (* a C++ exception leaves the function *)
| Undefined.                        (* no defined behaviour (dead receiver, ...) *)
Arguments Ok {A} a s.
Arguments Throw {A} e s.
Arguments Undefined {A}.

Definition M (A : Type) : Type := state -> result A.

Definition ret {A} (a : A) : M A := fun s => Ok a s.

Definition bind {A B} (c : M A) (k : A -> M B) : M B :=
  fun s => match c s with
           | Ok a s' => k a s'
           | Throw e s' => Throw e s'
           | Undefined => Undefined
           end.

Definition throw {A} (e : exception) : M A := fun s => Throw e s.
Definition undefined {A} : M A := fun _ => Undefined.

Declare Scope m_scope.
Delimit Scope m_scope with m.
Notation "x <- c ;; k" := (bind c (fun x => k))
  (at level 100, c at next level, right associativity) : m_scope.
Notation "c ;;; k" := (bind c (fun _ => k))
  (at level 100, right associativity) : m_scope.
Local Open Scope m_scope.

Definition emit (e : event) : M unit :=
  fun s => Ok tt {| heap := heap s; mono_current := mono_current s;
                    multi_current := multi_current s; trace := trace s ++ [e] |}.

(** The dynamic class of the object at [p] (its vtable pointer, and for a
    [MultiContext_impl] the bound thread); using an address that holds no
    live object has no defined behaviour. *)
Definition class_of (p : addr) : M impl_class :=
  fun s => match heap s !! p with
           | Some o => Ok (dyn o) s
           | None => Undefined
           end.

(** [p->_clear_mask] *)
Definition load_clear_mask (p : addr) : M GLbitfield :=
  fun s => match heap s !! p with
           | Some o => Ok (_clear_mask o) s
           | None => Undefined
           end.

Definition load_mono : M (option addr) := fun s => Ok (mono_current s) s.

Definition store_mono (p : option addr) : M unit :=
  fun s => Ok tt {| heap := heap s; mono_current := p;
                    multi_current := multi_current s;
                    trace := trace s ++ [EvStoreMono p] |}.

(** [current_context.find(t)]: [None] is [end()]. *)
Definition find_multi (t : thread_id) : M (option (option addr)) :=
  fun s => Ok (multi_current s !! t) s.

Definition store_multi (t : thread_id) (p : option addr) : M unit :=
  fun s => Ok tt {| heap := heap s; mono_current := mono_current s;
                    multi_current := <[t := p]> (multi_current s);
                    trace := trace s ++ [EvStoreMulti t p] |}.

Definition erase_multi (t : thread_id) : M unit :=
  fun s => Ok tt {| heap := heap s; mono_current := mono_current s;
                    multi_current := delete t (multi_current s);
                    trace := trace s ++ [EvEraseMulti t] |}.

(** [current_context[t]]: [std::map::operator[]] value-initialises a missing
    entry to [nullptr], then yields the entry. *)
Definition index_multi (t : thread_id) : M (option addr) :=
  o <- find_multi t ;;
  match o with
  | Some i => ret i
  | None => store_multi t None ;;; ret None
  end.

Definition alloc (p : addr) (o : Context_impl) : M unit :=
  fun s => match heap s !! p with
           | Some _ => Undefined
           | None => Ok tt {| heap := <[p := o]> (heap s);
                              mono_current := mono_current s;
                              multi_current := multi_current s;
                              trace := trace s |}
           end.

Definition free (p : addr) : M unit :=
  fun s => Ok tt {| heap := delete p (heap s); mono_current := mono_current s;
                    multi_current := multi_current s; trace := trace s |}.

(** ** Context_impl *)

(** [virtual void make_current() {}] *)
Definition Context_impl_make_current (this : addr) : M unit := ret tt.

(** [virtual bool current() const { return false; }] *)
Definition Context_impl_current (this : addr) : M bool := ret false.

(** [void Context_impl::on_made_not_current() {}]: the body is empty; the
    invocation itself is what the trace records. *)
Definition Context_impl_on_made_not_current (this : addr) : M unit :=
  emit (EvHook this).

(** In-class initialiser [_clear_mask { GL_COLOR_BUFFER_BIT }] and the
    constructor's [_handle(handle)]. *)
Definition Context_impl_ctor (gl : Driver) (this : addr) (handle : Z)
    (cls : impl_class) : M unit :=
  alloc this {| _clear_mask := GL_COLOR_BUFFER_BIT gl; _handle := handle;
                dyn := cls |}.

(** [Context_impl::~Context_impl() {}] *)
Definition Context_impl_dtor (this : addr) : M unit := ret tt.

(** ** MonoContext_impl *)

Definition MonoContext_impl_make_current (this : addr) : M unit :=
  current_context <- load_mono ;;
  (match current_context with
   | Some c => if decide (c ≠ this)
               then Context_impl_on_made_not_current c
               else ret tt
   | None => ret tt
   end) ;;;
  store_mono (Some this).

Definition MonoContext_impl_current (this : addr) : M bool :=
  current_context <- load_mono ;;
  ret (bool_decide (current_context = Some this)).

Definition MonoContext_impl_ctor (gl : Driver) (this : addr) (handle : Z)
    : M unit :=
  Context_impl_ctor gl this handle Mono ;;;
  MonoContext_impl_make_current this.

Definition MonoContext_impl_dtor (this : addr) : M unit :=
  current_context <- load_mono ;;
  (if decide (current_context = Some this) then store_mono None else ret tt) ;;;
  Context_impl_dtor this.

(** ** MultiContext_impl *)

(** [this->_thread_id]; reading the field of an object that is not a live
    [MultiContext_impl] has no defined behaviour. *)
Definition MultiContext_impl_thread_id (this : addr) : M thread_id :=
  cls <- class_of this ;;
  match cls with
  | Multi t => ret t
  | Mono => undefined
  end.

(** [caller] is [std::this_thread::get_id()]. *)
Definition MultiContext_impl_make_current (this : addr) (caller : thread_id)
    : M unit :=
  _thread_id <- MultiContext_impl_thread_id this ;;
  if decide (caller ≠ _thread_id) then
    throw (gl_exception "attempt to make Context current on another thread")
  else
    emit (EvLock caller) ;;;
    i <- index_multi _thread_id ;;
    (if decide (i ≠ Some this) then
       (match i with
        | Some p => Context_impl_on_made_not_current p
        | None => ret tt
        end) ;;;
       store_multi _thread_id (Some this)
     else ret tt) ;;;
    emit (EvUnlock caller) ;;;
    Context_impl_make_current this.

Definition MultiContext_impl_current (this : addr) (caller : thread_id)
    : M bool :=
  _thread_id <- MultiContext_impl_thread_id this ;;
  if decide (caller ≠ _thread_id) then ret false
  else
    emit (EvLock caller) ;;;
    it <- find_multi _thread_id ;;
    emit (EvUnlock caller) ;;;
    ret (bool_decide (it = Some (Some this))).

Definition MultiContext_impl_ctor (gl : Driver) (this : addr) (handle : Z)
    (caller : thread_id) : M unit :=
  Context_impl_ctor gl this handle (Multi caller) ;;;
  MultiContext_impl_make_current this caller.

Definition MultiContext_impl_dtor (this : addr) (caller : thread_id)
    : M unit :=
  emit (EvLock caller) ;;;
  _thread_id <- MultiContext_impl_thread_id this ;;
  it <- find_multi _thread_id ;;
  (if decide (it = Some (Some this)) then erase_multi _thread_id else ret tt) ;;;
  emit (EvUnlock caller) ;;;
  Context_impl_dtor this.

(** ** Context (the facade), virtual dispatch on the dynamic class *)

(** [bool Context::current() const { return _impl->current(); }] *)
Definition Context_current (this : addr) (caller : thread_id) : M bool :=
  cls <- class_of this ;;
  match cls with
  | Mono => MonoContext_impl_current this
  | Multi _ => MultiContext_impl_current this caller
  end.

(** [void Context::make_current() { _impl->make_current(); }] *)
Definition Context_make_current (this : addr) (caller : thread_id) : M unit :=
  cls <- class_of this ;;
  match cls with
  | Mono => MonoContext_impl_make_current this
  | Multi _ => MultiContext_impl_make_current this caller
  end.

(** [Context::~Context() { delete _impl; }]: the virtual destructor of the
    dynamic class runs, then the storage is released. *)
Definition Context_dtor (this : addr) (caller : thread_id) : M unit :=
  cls <- class_of this ;;
  (match cls with
   | Mono => MonoContext_impl_dtor this
   | Multi _ => MultiContext_impl_dtor this caller
   end) ;;;
  free this.

(** [MonoContext::MonoContext(void* handle)] sets [_impl] to a new
    [MonoContext_impl] built from the facade and [handle]; [p] is the
    address the allocation returns. *)
Definition MonoContext_ctor (gl : Driver) (p : addr) (handle : Z) : M unit :=
  MonoContext_impl_ctor gl p handle.

(** ** Driver calls and the typed parameter reader *)

(** Modelled from the spec: the [GL_CALL] macro, which context.cpp wraps
    around every driver call, is not defined in the sources.  Section 6:
    every call into the driver is checked by an external error-checking
    wrapper that converts driver error codes into the failure taxonomy;
    section 7: a DriverError is raised when the device signals an error for
    a given call, propagated and not masked.  The call is issued, then its
    error code decides between the reply and the exception. *)
Definition GL_CALL (gl : Driver) (c : gl_call) : M reply :=
  fun s =>
    let r := drv_reply gl (trace s) c in
    let s' := {| heap := heap s; mono_current := mono_current s;
                 multi_current := multi_current s;
                 trace := trace s ++ [EvGL c] |} in
    if decide (error r = 0) then Ok r s' else Throw (driver_error (error r)) s'.

(** [template<typename T, void( *GET)(GLenum, T* )>
     void get(Context const& context, GLenum param, T* out)]:
    the result is what the driver wrote to [out]. *)
Definition get_out (gl : Driver) (GET : GLenum -> gl_call) (context : addr)
    (caller : thread_id) (param : GLenum) : M (list Z) :=
  cur <- Context_current context caller ;;
  if negb cur then
    throw (gl_exception "can't get param from inactive context")
  else
    r <- GL_CALL gl (GET param) ;;
    ret (written r).

(** [T rv; get<T, GET>(context, param, &rv); return rv;]: [rv] is one
    uninitialised [T]; the read is defined when the driver wrote exactly
    that one element. *)
Definition get_single (gl : Driver) (GET : GLenum -> gl_call) (context : addr)
    (caller : thread_id) (param : GLenum) : M Z :=
  out <- get_out gl GET context caller param ;;
  match out with
  | [rv] => ret rv
  | _ => undefined
  end.

(** The instantiations of [template<typename T> T get(Context const&, GLenum)]. *)
Inductive gl_type := T_int | T_int64 | T_bool | T_double | T_float | T_color.

Definition ctype (T : gl_type) : Type :=
  match T with
  | T_bool => bool
  | T_color => color
  | _ => Z
  end.

(** The native query each instantiation names as its [GET]. *)
Definition native_query (T : gl_type) : GLenum -> gl_call :=
  match T with
  | T_int => glGetIntegerv
  | T_int64 => glGetInteger64v
  | T_bool => glGetBooleanv
  | T_double => glGetDoublev
  | T_float | T_color => glGetFloatv
  end.

(** Conversion of a [GLboolean] to [bool]. *)
Definition bool_of_GLboolean (v : Z) : bool := negb (v =? 0).

Definition get (gl : Driver) (T : gl_type) (context : addr)
    (caller : thread_id) (param : GLenum) : M (ctype T) :=
  match T return M (ctype T) with
  | T_int => get_single gl glGetIntegerv context caller param
  | T_int64 => get_single gl glGetInteger64v context caller param
  | T_bool =>
      v <- get_single gl glGetBooleanv context caller param ;;
      ret (bool_of_GLboolean v)
  | T_double => get_single gl glGetDoublev context caller param
  | T_float => get_single gl glGetFloatv context caller param
  | T_color =>
      (* color c; get<GLfloat, glGetFloatv>(context, param, (GLfloat* )&c) *)
      out <- get_out gl glGetFloatv context caller param ;;
      match out with
      | [r; g; b; a] => ret {| col_r := r; col_g := g; col_b := b; col_a := a |}
      | _ => undefined
      end
  end.

(** [(unsigned)] of an [int]. *)
Definition to_unsigned (z : Z) : Z := z mod 2 ^ 32.

Definition Context_major_version (gl : Driver) (this : addr)
    (caller : thread_id) : M Z :=
  v <- get gl T_int this caller (GL_MAJOR_VERSION gl) ;;
  ret (to_unsigned v).

Definition Context_minor_version (gl : Driver) (this : addr)
    (caller : thread_id) : M Z :=
  v <- get gl T_int this caller (GL_MINOR_VERSION gl) ;;
  ret (to_unsigned v).

(** [void Context::clear() { GL_CALL(glClear(_impl->_clear_mask)); }] *)
Definition Context_clear (gl : Driver) (this : addr) : M unit :=
  mask <- load_clear_mask this ;;
  GL_CALL gl (glClear mask) ;;;
  ret tt.

(** [void Context::clear(GLbitfield mask) { GL_CALL(glClear(mask)); }] *)
Definition Context_clear_mask (gl : Driver) (this : addr) (mask : GLbitfield)
    : M unit :=
  GL_CALL gl (glClear mask) ;;;
  ret tt.

Definition Context_clear_color (gl : Driver) (this : addr) (c : color)
    : M unit :=
  GL_CALL gl (glClearColor (col_r c) (col_g c) (col_b c) (col_a c)) ;;;
  ret tt.

Definition Context_enable (gl : Driver) (this : addr) (capability : GLenum)
    : M unit :=
  GL_CALL gl (glEnable capability) ;;;
  ret tt.

Definition Context_disable (gl : Driver) (this : addr) (capability : GLenum)
    : M unit :=
  GL_CALL gl (glDisable capability) ;;;
  ret tt.

Definition Context_is_enabled (gl : Driver) (this : addr)
    (capability : GLenum) : M bool :=
  rv <- GL_CALL gl (glIsEnabled capability) ;;
  ret (bool_of_GLboolean (returned rv)).

(** [template<GLenum P, typename T> T Context::get() const] *)
Definition Context_get (gl : Driver) (T : gl_type) (this : addr)
    (caller : thread_id) (P : GLenum) : M (ctype T) :=
  get gl T this caller P.

(** ** Programs: sequences of calls made by client threads *)

Inductive action :=
| NewMono (p : addr) (handle : Z)       (* MonoContext(handle), impl at p *)
| NewMulti (p : addr) (handle : Z)      (* MultiContext_impl(ctx, handle) at p *)
| MakeCurrent (c : addr)
| IsCurrent (c : addr)
| Delete (c : addr)
| Clear (c : addr)
| ClearMask (c : addr) (mask : GLbitfield)
| ClearColor (c : addr) (col : color)
| Get (T : gl_type) (c : addr) (param : GLenum)
| MajorVersion (c : addr)
| MinorVersion (c : addr)
| Enable (c : addr) (cap : GLenum)
| Disable (c : addr) (cap : GLenum)
| IsEnabled (c : addr) (cap : GLenum).

Inductive retval :=
| RVoid
| RBool (b : bool)
| RUnsigned (z : Z)
| RValue (T : gl_type) (v : ctype T).

(** A member call needs a live receiver. *)
Definition on_live {A} (c : addr) (m : M A) : M A := class_of c ;;; m.

(** One call, made by thread [caller]. *)
Definition exec (gl : Driver) (caller : thread_id) (a : action) : M retval :=
  match a with
  | NewMono p handle => MonoContext_ctor gl p handle ;;; ret RVoid
  | NewMulti p handle => MultiContext_impl_ctor gl p handle caller ;;; ret RVoid
  | MakeCurrent c => Context_make_current c caller ;;; ret RVoid
  | IsCurrent c => b <- Context_current c caller ;; ret (RBool b)
  | Delete c => Context_dtor c caller ;;; ret RVoid
  | Clear c => Context_clear gl c ;;; ret RVoid
  | ClearMask c mask => on_live c (Context_clear_mask gl c mask) ;;; ret RVoid
  | ClearColor c col => on_live c (Context_clear_color gl c col) ;;; ret RVoid
  | Get T c param => v <- Context_get gl T c caller param ;; ret (RValue T v)
  | MajorVersion c => z <- Context_major_version gl c caller ;; ret (RUnsigned z)
  | MinorVersion c => z <- Context_minor_version gl c caller ;; ret (RUnsigned z)
  | Enable c cap => on_live c (Context_enable gl c cap) ;;; ret RVoid
  | Disable c cap => on_live c (Context_disable gl c cap) ;;; ret RVoid
  | IsEnabled c cap => b <- on_live c (Context_is_enabled gl c cap) ;; ret (RBool b)
  end.

(** The state a call leaves behind, whether it returns or throws. *)
Definition state_after {A} (r : result A) : option state :=
  match r with
  | Ok _ s => Some s
  | Throw _ s => Some s
  | Undefined => None
  end.

Definition step (gl : Driver) (caller : thread_id) (a : action)
    (s s' : state) : Prop :=
  state_after (exec gl caller a s) = Some s'.

(** Running a whole program; a thrown exception is caught by the client,
    which goes on with its next call. *)
Fixpoint run (gl : Driver) (prog : list (thread_id * action)) (s : state)
    : option state :=
  match prog with
  | [] => Some s
  | (caller, a) :: rest =>
      match state_after (exec gl caller a s) with
      | Some s' => run gl rest s'
      | None => None
      end
  end.

Inductive reachable (gl : Driver) : state -> Prop :=
| reachable_init : reachable gl init_state
| reachable_step s caller a s' :
    reachable gl s -> step gl caller a s s' -> reachable gl s'.

(** ** Vocabulary of the properties *)

(** The events logged between an earlier state and a later one. *)
Definition since (s s' : state) : list event :=
  drop (length (trace s)) (trace s').

(** How often the no-longer-current hook of [a] ran in a stretch of trace. *)
Definition hook_count (a : addr) (tr : list event) : nat :=
  length (filter (fun e => e = EvHook a) tr).

(** The objects whose hook ran, in order. *)
Definition hooks (tr : list event) : list addr :=
  omap (fun e => match e with EvHook a => Some a | _ => None end) tr.

(** Lock acquisitions in a stretch of trace. *)
Definition locks (tr : list event) : list thread_id :=
  omap (fun e => match e with EvLock t => Some t | _ => None end) tr.

Definition is_mono (s : state) (p : addr) : Prop :=
  exists o, heap s !! p = Some o /\ dyn o = Mono.

Definition is_multi (s : state) (p : addr) (t : thread_id) : Prop :=
  exists o, heap s !! p = Some o /\ dyn o = Multi t.

(** [p.is_current()] evaluated on thread [t] returns [b]. *)
Definition is_current_on (s : state) (t : thread_id) (p : addr) (b : bool)
    : Prop :=
  exists s', Context_current p t s = Ok b s'.

(** At most one instance is current per scope: the process for the
    single-owner class, each thread for the per-thread-owner class. *)
Definition at_most_one_current (s : state) : Prop :=
  (forall a b ta tb,
      is_mono s a -> is_mono s b ->
      is_current_on s ta a true -> is_current_on s tb b true -> a = b)
  /\ (forall t a b ta tb,
        is_multi s a ta -> is_multi s b tb ->
        is_current_on s t a true -> is_current_on s t b true -> a = b).

(** The registries hold only non-owning references to live objects of their
    own class, and a thread's slot only an object bound to that thread. *)
Definition registry_ok (s : state) : Prop :=
  (forall p, mono_current s = Some p -> is_mono s p)
  /\ (forall t i, multi_current s !! t = Some i ->
        exists p, i = Some p /\ is_multi s p t).

(** Calls that are neither a construction (which makes the new object
    current) nor an explicit [make_current()]. *)
Definition quiet (a : action) : bool :=
  match a with
  | NewMono _ _ | NewMulti _ _ | MakeCurrent _ => false
  | _ => true
  end.

Definition quiet_prog (prog : list (thread_id * action)) : Prop :=
  Forall (fun ca => quiet ca.2 = true) prog.

(** A computation satisfies a relation between the state it starts in and
    the state it leaves behind. *)
Definition preserves (R : state -> state -> Prop) {A} (c : M A) : Prop :=
  forall s s', state_after (c s) = Some s' -> R s s'.

(** Heap and registries are as before (the trace may have grown). *)
Definition same_registry (s s' : state) : Prop :=
  heap s' = heap s
  /\ mono_current s' = mono_current s
  /\ multi_current s' = multi_current s.

(** The typed value that a driver reply denotes for each instantiation: one
    element for the scalar types, four floats for a color. *)
Definition reported (T : gl_type) (out : list Z) : option (ctype T) :=
  match T return option (ctype T) with
  | T_bool => match out with [v] => Some (bool_of_GLboolean v) | _ => None end
  | T_color => match out with
               | [r; g; b; a] => Some (mk_color r g b a)
               | _ => None
               end
  | T_int | T_int64 | T_double | T_float =>
      match out with [v] => Some v | _ => None end
  end.

(** The state in which a driver call [c] issued at [s] ends. *)
Definition called (c : gl_call) (s : state) : state :=
  {| heap := heap s; mono_current := mono_current s;
     multi_current := multi_current s; trace := trace s ++ [EvGL c] |}.

(** Independence of the stored clear masks: two states that agree on
    everything but the [_clear_mask] fields give the same outcome, again up
    to those fields. *)
Definition erase_mask (o : Context_impl) : Context_impl :=
  {| _clear_mask := 0; _handle := _handle o; dyn := dyn o |}.

Definition forget_masks (s : state) : state :=
  {| heap := erase_mask <$> heap s; mono_current := mono_current s;
     multi_current := multi_current s; trace := trace s |}.

Definition forget_result {A} (r : result A) : result A :=
  match r with
  | Ok a s => Ok a (forget_masks s)
  | Throw e s => Throw e (forget_masks s)
  | Undefined => Undefined
  end.

Definition mask_independent {A} (c : M A) : Prop :=
  forall s1 s2, forget_masks s1 = forget_masks s2 ->
                forget_result (c s1) = forget_result (c s2).

Definition consults_mask (a : action) : bool :=
  match a with
  | Clear _ => true
  | _ => false
  end.

(** A driver for the examples: every call succeeds, a float query reports
    four components and any other query one. *)
Definition demo_driver : Driver :=
  {| GL_COLOR_BUFFER_BIT := 0x4000;
     GL_MAJOR_VERSION := 0x821B;
     GL_MINOR_VERSION := 0x821C;
     drv_reply := fun _ c =>
       match c with
       | glGetFloatv _ => {| written := [1; 2; 3; 4]; returned := 0; error := 0 |}
       | _ => {| written := [4]; returned := 1; error := 0 |}
       end |}.

(** Example states: a [MonoContext_impl] at address 1, current; and a
    [MultiContext_impl] at address 1 created by, and current on, thread 0. *)
Definition demo_mono : state :=
  {| heap := {[ 1%positive := mk_impl 0x4000 0 Mono ]};
     mono_current := Some 1%positive;
     multi_current := ∅;
     trace := [EvStoreMono (Some 1%positive)] |}.

Definition demo_multi : state :=
  {| heap := {[ 1%positive := mk_impl 0x4000 0 (Multi 0) ]};
     mono_current := None;
     multi_current := {[ 0%nat := Some 1%positive ]};
     trace := [EvLock 0; EvStoreMulti 0 None; EvStoreMulti 0 (Some 1%positive);
               EvUnlock 0] |}.

(** Two [MultiContext_impl] objects: address 1 bound to thread 0, address 2
    bound to thread 1, neither current. *)
Definition demo_two_threads : state :=
  {| heap := {[ 1%positive := mk_impl 0x4000 0 (Multi 0);
                2%positive := mk_impl 0x4000 0 (Multi 1) ]};
     mono_current := None;
     multi_current := ∅;
     trace := [] |}.

(** No slot was given a new occupant: each slot is as before or empty. *)
Definition slots_only_cleared (s s' : state) : Prop :=
  (mono_current s' = mono_current s \/ mono_current s' = None)
  /\ (forall t, multi_current s' !! t = multi_current s !! t
               \/ multi_current s' !! t = None).

(** ** Vocabulary of the further properties *)

(** Driver calls in a stretch of trace, in order. *)
Definition gl_calls (tr : list event) : list gl_call :=
  omap (fun e => match e with EvGL c => Some c | _ => None end) tr.

(** The events of [MonoContext_impl::make_current] on [this] when the
    process-wide reference holds [cur]. *)
Definition mono_make_current_events (this : addr) (cur : option addr)
    : list event :=
  match cur with
  | Some c => if decide (c = this) then [] else [EvHook c]
  | None => []
  end ++ [EvStoreMono (Some this)].

(** The events of [MultiContext_impl::make_current] on [this], called on its
    own thread [t], when [current_context.find(t)] gives [slot]. *)
Definition multi_make_current_events (this : addr) (t : thread_id)
    (slot : option (option addr)) : list event :=
  [EvLock t]
  ++ match slot with
     | None => [EvStoreMulti t None; EvStoreMulti t (Some this)]
     | Some None => [EvStoreMulti t (Some this)]
     | Some (Some c) =>
         if decide (c = this) then []
         else [EvHook c; EvStoreMulti t (Some this)]
     end
  ++ [EvUnlock t].

(** The locking discipline, checked along a trace.  [holder] is the thread
    that holds [current_context_lock].  The lock is taken only when free and
    released only by its holder; an entry of the map is written only by the
    thread whose entry it is, while that thread holds the lock; an entry is
    erased only under the lock; the driver is never called under the lock. *)
Definition discipline_step (holder : option thread_id) (e : event)
    : option (option thread_id) :=
  match e with
  | EvLock t => match holder with None => Some (Some t) | Some _ => None end
  | EvUnlock t => if decide (holder = Some t) then Some None else None
  | EvStoreMulti t _ => if decide (holder = Some t) then Some holder else None
  | EvEraseMulti _ => match holder with Some _ => Some holder | None => None end
  | EvGL _ => match holder with None => Some holder | Some _ => None end
  | EvHook _ | EvStoreMono _ => Some holder
  end.

Fixpoint lock_discipline (holder : option thread_id) (tr : list event)
    : option (option thread_id) :=
  match tr with
  | [] => Some holder
  | e :: tr' =>
      match discipline_step holder e with
      | Some h => lock_discipline h tr'
      | None => None
      end
  end.

(** A computation started with the lock in state [h] keeps the discipline
    and returns with the lock in state [h']; when it throws, the lock is
    free. *)
Definition disciplined (h h' : option thread_id) {A} (c : M A) : Prop :=
  forall s,
    match c s with
    | Ok _ s' =>
        exists tr, trace s' = trace s ++ tr /\ lock_discipline h tr = Some h'
    | Throw _ s' =>
        exists tr, trace s' = trace s ++ tr /\ lock_discipline h tr = Some None
    | Undefined => True
    end.

(** Every live object still has the mask its constructor stored. *)
Definition masks_default (gl : Driver) (s : state) : Prop :=
  forall p o, heap s !! p = Some o -> _clear_mask o = GL_COLOR_BUFFER_BIT gl.

(** The instance is registered as current in its own scope. *)
Definition registered (s : state) (p : addr) : Prop :=
  mono_current s = Some p \/ exists t, multi_current s !! t = Some (Some p).

(** The calls that only talk to the driver or ask a question. *)
Definition observer (a : action) : bool :=
  match a with
  | NewMono _ _ | NewMulti _ _ | MakeCurrent _ | Delete _ => false
  | _ => true
  end.

(** The calls that are guarded by the currency check, with the parameter
    they read. *)
Definition guarded_read (gl : Driver) (a : action)
    : option (addr * gl_call) :=
  match a with
  | Get T c param => Some (c, native_query T param)
  | MajorVersion c => Some (c, glGetIntegerv (GL_MAJOR_VERSION gl))
  | MinorVersion c => Some (c, glGetIntegerv (GL_MINOR_VERSION gl))
  | _ => None
  end.

(** The calls that go to the driver without a currency check, with the one
    driver call they make when the stored mask of the receiver is [mask]. *)
Definition unguarded_call (mask : GLbitfield) (a : action)
    : option (addr * gl_call) :=
  match a with
  | Clear c => Some (c, glClear mask)
  | ClearMask c m => Some (c, glClear m)
  | ClearColor c col =>
      Some (c, glClearColor (col_r col) (col_g col) (col_b col) (col_a col))
  | Enable c cap => Some (c, glEnable cap)
  | Disable c cap => Some (c, glDisable cap)
  | IsEnabled c cap => Some (c, glIsEnabled cap)
  | _ => None
  end.

(** Example states for the further properties: two [MonoContext_impl]
    objects, the second one current; two [MultiContext_impl] objects of
    thread 0, the first one current; one object of each class, neither
    current. *)
Definition demo_two_mono : state :=
  {| heap := {[ 1%positive := mk_impl 0x4000 0 Mono;
                2%positive := mk_impl 0x4000 0 Mono ]};
     mono_current := Some 2%positive;
     multi_current := ∅;
     trace := [] |}.

Definition demo_same_thread : state :=
  {| heap := {[ 1%positive := mk_impl 0x4000 0 (Multi 0);
                2%positive := mk_impl 0x4000 0 (Multi 0) ]};
     mono_current := None;
     multi_current := {[ 0%nat := Some 1%positive ]};
     trace := [] |}.

Definition demo_mixed : state :=
  {| heap := {[ 1%positive := mk_impl 0x4000 0 Mono;
                2%positive := mk_impl 0x4000 0 (Multi 0) ]};
     mono_current := None;
     multi_current := ∅;
     trace := [] |}.

(** Only events other than hook invocations were logged. *)
Definition hook_free (s s' : state) : Prop :=
  exists tr, trace s' = trace s ++ tr /\ hooks tr = [].

(** The stored masks are still the default ones if they were before. *)
Definition keeps_masks (gl : Driver) (s s' : state) : Prop :=
  masks_default gl s -> masks_default gl s'.

(** The slots of all threads other than [caller] are as before. *)
Definition slot_frame (caller : thread_id) (s s' : state) : Prop :=
  forall t, t ≠ caller -> multi_current s' !! t = multi_current s !! t.

(** ** Proof support *)

Create HintDb ctx_unfold.
#[local] Hint Unfold
  Context_impl_make_current Context_impl_current
  Context_impl_on_made_not_current Context_impl_ctor Context_impl_dtor
  MonoContext_impl_make_current MonoContext_impl_current
  MonoContext_impl_ctor MonoContext_impl_dtor MonoContext_ctor
  MultiContext_impl_thread_id MultiContext_impl_make_current
  MultiContext_impl_current MultiContext_impl_ctor MultiContext_impl_dtor
  Context_current Context_make_current Context_dtor
  index_multi find_multi store_multi erase_multi load_mono store_mono
  class_of load_clear_mask alloc free emit on_live
  bind ret throw undefined : ctx_unfold.

Ltac unfold_ctx := autounfold with ctx_unfold in *; simpl in *.

Lemma since_app (s s' : state) (tr : list event) :
  trace s' = trace s ++ tr -> since s s' = tr.
Proof. unfold since. intros ->. apply drop_app_length. Qed.

Lemma hook_count_app (a : addr) (l k : list event) :
  hook_count a (l ++ k) = (hook_count a l + hook_count a k)%nat.
Proof. unfold hook_count. by rewrite filter_app, length_app. Qed.

(** ** The single-owner variant *)

(** C1.  For two distinct instances [A] and [B], from any state:
    [A.make_current()] then [B.make_current()] both return; afterwards
    [A.current()] is false and [B.current()] is true; in the events of the
    two calls the hook of [A] runs exactly once, and it runs immediately
    before the store that sets the process-wide reference to [B] (everything
    earlier is at most the hook of a third instance and the store of [A]). *)
Theorem mono_make_current_switch (A B : addr) (s : state) :
  A ≠ B ->
  exists s2 sA sB pre,
    (MonoContext_impl_make_current A ;;; MonoContext_impl_make_current B) s
      = Ok tt s2
    /\ MonoContext_impl_current A s2 = Ok false sA
    /\ MonoContext_impl_current B s2 = Ok true sB
    /\ mono_current s2 = Some B
    /\ since s s2
       = pre ++ [EvStoreMono (Some A); EvHook A; EvStoreMono (Some B)]
    /\ (forall e, e ∈ pre -> exists c, e = EvHook c /\ c ≠ A)
    /\ hook_count A (since s s2) = 1%nat.
Proof.
  intros HAB.
  set (pre := match mono_current s with
              | Some c => if decide (c ≠ A) then [EvHook c] else []
              | None => []
              end).
  assert (Hpre : forall e, e ∈ pre -> exists c, e = EvHook c /\ c ≠ A).
  { subst pre. intros e He. destruct (mono_current s) as [c|].
    - case_decide; [|by apply not_elem_of_nil in He].
      apply list_elem_of_singleton in He. eauto.
    - by apply not_elem_of_nil in He. }
  assert (Hcount : hook_count A pre = 0%nat).
  { subst pre. unfold hook_count. destruct (mono_current s) as [c|]; [|done].
    case_decide; [|done]. simpl. rewrite filter_cons_False, filter_nil; [done|].
    congruence. }
  assert (Htr : exists s2,
    (MonoContext_impl_make_current A ;;; MonoContext_impl_make_current B) s
      = Ok tt s2
    /\ mono_current s2 = Some B
    /\ trace s2 = trace s ++ pre
         ++ [EvStoreMono (Some A); EvHook A; EvStoreMono (Some B)]).
  { subst pre. unfold_ctx. destruct (mono_current s) as [c|]; simpl.
    - destruct (decide (c ≠ A)); simpl;
        (destruct (decide (A ≠ B)); [|done]); simpl;
        eexists; (split; [reflexivity|]); simpl; (split; [done|]);
        by rewrite <- !app_assoc.
    - destruct (decide (A ≠ B)); [|done]. simpl.
      eexists; (split; [reflexivity|]); simpl; (split; [done|]).
      by rewrite <- !app_assoc. }
  destruct Htr as (s2 & Hrun & Hcur & Htr).
  exists s2, s2, s2, pre. split; [done|].
  split. { unfold_ctx. rewrite Hcur. rewrite bool_decide_eq_false_2; [done|congruence]. }
  split. { unfold_ctx. rewrite Hcur. by rewrite bool_decide_eq_true_2. }
  split; [done|].
  apply since_app in Htr. rewrite Htr.
  split; [done|]. split; [done|].
  rewrite hook_count_app, Hcount. unfold hook_count.
  rewrite filter_cons_False by congruence.
  rewrite filter_cons_True by done.
  rewrite filter_cons_False by congruence. done.
Qed.

(** ** The per-thread-owner variant: calls from a foreign thread *)

(** C2.  [make_current()] of a [MultiContext_impl], called from a thread
    other than the one recorded in [_thread_id], throws the cross-thread
    exception, directly and through the facade; the state in which the
    exception leaves is the state of the call, so the shared map (and
    everything else, the trace included) is unchanged. *)
Theorem multi_make_current_foreign_thread_throws
    (this : addr) (creator caller : thread_id) (s : state) :
  is_multi s this creator ->
  caller ≠ creator ->
  exists s',
    MultiContext_impl_make_current this caller s
      = Throw (gl_exception "attempt to make Context current on another thread") s'
    /\ Context_make_current this caller s
      = Throw (gl_exception "attempt to make Context current on another thread") s'
    /\ multi_current s' = multi_current s
    /\ s' = s.
Proof.
  intros (o & Ho & Hdyn) Hne. exists s. unfold_ctx.
  rewrite Ho, Hdyn. simpl. rewrite Ho, Hdyn. simpl.
  destruct (decide (caller ≠ creator)); [done|contradiction].
Qed.

(** C6.  [current()] of a [MultiContext_impl], called from a thread other
    than the creating one, returns false at once: the state it returns in is
    the state of the call, so nothing is written to the map and no event, in
    particular no lock acquisition, is logged. *)
Theorem multi_current_foreign_thread_false
    (this : addr) (creator caller : thread_id) (s : state) :
  is_multi s this creator ->
  caller ≠ creator ->
  exists s',
    MultiContext_impl_current this caller s = Ok false s'
    /\ Context_current this caller s = Ok false s'
    /\ s' = s
    /\ since s s' = []
    /\ locks (since s s') = [].
Proof.
  intros (o & Ho & Hdyn) Hne. exists s.
  assert (Hs : since s s = []).
  { apply since_app. by rewrite app_nil_r. }
  rewrite Hs. unfold_ctx.
  rewrite Ho, Hdyn. simpl. rewrite Ho, Hdyn. simpl.
  destruct (decide (caller ≠ creator)); [done|contradiction].
Qed.

(** For contrast: on the creating thread the query does take the lock. *)
Lemma multi_current_own_thread_locks
    (this : addr) (creator : thread_id) (s : state) :
  is_multi s this creator ->
  exists b s',
    MultiContext_impl_current this creator s = Ok b s'
    /\ b = bool_decide (multi_current s !! creator = Some (Some this))
    /\ since s s' = [EvLock creator; EvUnlock creator].
Proof.
  intros (o & Ho & Hdyn). unfold_ctx. rewrite Ho, Hdyn. simpl.
  destruct (decide (creator ≠ creator)); [done|]. simpl.
  eexists _, _. split; [reflexivity|]. split; [done|].
  apply since_app. simpl. by rewrite <- app_assoc.
Qed.

(** [current()] never throws, whatever the receiver, thread and state. *)
Lemma Context_current_no_throw (this : addr) (caller : thread_id) (s : state)
    (e : exception) (s' : state) :
  Context_current this caller s ≠ Throw e s'.
Proof.
  unfold_ctx. destruct (heap s !! this) as [o|]; [|done]. simpl.
  destruct (dyn o) as [|t]; simpl; [done|].
  destruct (heap s !! this) as [o'|]; [|done]. simpl.
  destruct (dyn o') as [|t']; simpl; [done|].
  destruct (decide (caller ≠ t')); done.
Qed.

(** C5, as amended.  Querying a [MultiContext_impl] as current from a thread
    other than its creating thread is not reported as a failure: [current()]
    never throws, and from a foreign thread it returns false to the caller
    in an unchanged state.  Only [make_current()] from a foreign thread is
    reported, by the exception. *)
Theorem multi_foreign_query_returns_false_only_make_current_throws
    (this : addr) (creator caller : thread_id) (s : state) :
  is_multi s this creator ->
  caller ≠ creator ->
  (forall e s', Context_current this caller s ≠ Throw e s')
  /\ Context_current this caller s = Ok false s
  /\ exists what, Context_make_current this caller s
                  = Throw (gl_exception what) s.
Proof.
  intros Hm Hne. split; [intros; apply Context_current_no_throw|].
  split.
  - destruct Hm as (o & Ho & Hdyn). unfold_ctx.
    rewrite Ho, Hdyn. simpl. rewrite Ho, Hdyn. simpl.
    destruct (decide (caller ≠ creator)); [done|contradiction].
  - destruct Hm as (o & Ho & Hdyn). unfold_ctx.
    rewrite Ho, Hdyn. simpl. rewrite Ho, Hdyn. simpl.
    destruct (decide (caller ≠ creator)); [eauto|contradiction].
Qed.

(** ** Idempotence of make_current *)

(** C9.  If [this.current()] is true on the calling thread (so for a
    [MultiContext_impl] the caller is the owning thread), [make_current()]
    returns and leaves the process-wide slot, the per-thread map and the
    heap as they were, and no hook of any instance runs during the call. *)
Theorem make_current_idempotent
    (this : addr) (caller : thread_id) (s s0 : state) :
  Context_current this caller s = Ok true s0 ->
  exists s',
    Context_make_current this caller s = Ok tt s'
    /\ mono_current s' = mono_current s
    /\ multi_current s' = multi_current s
    /\ heap s' = heap s
    /\ hooks (since s s') = [].
Proof.
  unfold_ctx. destruct (heap s !! this) as [o|] eqn:Ho; [|done]. simpl.
  destruct (dyn o) as [|t] eqn:Hdyn; simpl.
  - intros H. injection H as Hb _. apply bool_decide_eq_true in Hb.
    rewrite Hb. destruct (decide (this ≠ this)); [done|]. simpl.
    eexists. split; [reflexivity|]. simpl. repeat split; try done.
    erewrite since_app; [|reflexivity]. done.
  - rewrite Ho. simpl. rewrite Hdyn. simpl.
    destruct (decide (caller ≠ t)) as [|Heq]; [done|]. simpl.
    intros H. injection H as Hb _. apply bool_decide_eq_true in Hb.
    rewrite Hb. simpl.
    destruct (decide (Some this ≠ Some this)); [done|]. simpl.
    eexists. split; [reflexivity|]. simpl. repeat split; try done.
    erewrite since_app; [|simpl; by rewrite <- app_assoc]. done.
Qed.

(** ** The per-thread-owner variant on the owning thread *)

Lemma is_multi_heap (s s' : state) (p : addr) (t : thread_id) :
  heap s' = heap s -> is_multi s p t -> is_multi s' p t.
Proof. unfold is_multi. by intros ->. Qed.

(** On its own thread [make_current()] returns, and its whole effect on the
    registries is that the slot of that thread holds [this]. *)
Lemma multi_make_current_own_thread
    (this : addr) (t : thread_id) (s : state) :
  is_multi s this t ->
  exists s',
    MultiContext_impl_make_current this t s = Ok tt s'
    /\ heap s' = heap s
    /\ mono_current s' = mono_current s
    /\ multi_current s' = <[t := Some this]> (multi_current s).
Proof.
  intros (o & Ho & Hdyn). unfold_ctx. rewrite Ho, Hdyn. simpl.
  destruct (decide (t ≠ t)); [done|]. simpl.
  destruct (multi_current s !! t) as [i|] eqn:Hi; simpl.
  - destruct (decide (i ≠ Some this)) as [Hne|Heq]; simpl.
    + destruct i as [p|]; simpl;
        (eexists; split; [reflexivity|]; simpl; done).
    + eexists; split; [reflexivity|]; simpl. repeat split; try done.
      apply dec_stable in Heq. subst i. symmetry. by apply insert_id.
  - destruct (decide (None ≠ Some this)) as [_|Hx]; [|by destruct Hx]. simpl.
    eexists; split; [reflexivity|]; simpl. repeat split; try done.
    by rewrite insert_insert_eq.
Qed.

(** On any other thread it throws and the state stays as it was. *)
Lemma multi_make_current_other_thread
    (this : addr) (t caller : thread_id) (s : state) :
  is_multi s this t -> caller ≠ t ->
  exists what,
    MultiContext_impl_make_current this caller s = Throw (gl_exception what) s.
Proof.
  intros (o & Ho & Hdyn) Hne. unfold_ctx. rewrite Ho, Hdyn. simpl.
  destruct (decide (caller ≠ t)); [eauto|contradiction].
Qed.

(** What the facade's [current()] answers for each class. *)
Lemma Context_current_multi (p : addr) (t caller : thread_id) (s : state) :
  is_multi s p t ->
  exists s',
    Context_current p caller s
      = Ok (bool_decide (caller = t /\ multi_current s !! t = Some (Some p))) s'
    /\ heap s' = heap s
    /\ mono_current s' = mono_current s
    /\ multi_current s' = multi_current s.
Proof.
  intros (o & Ho & Hdyn). unfold_ctx. rewrite Ho, Hdyn. simpl.
  rewrite Ho, Hdyn. simpl.
  destruct (decide (caller ≠ t)) as [Hne|Heq]; simpl.
  - exists s. rewrite bool_decide_eq_false_2; [done|]. intros [? _]. done.
  - apply dec_stable in Heq. subst caller.
    assert (Hb : bool_decide (multi_current s !! t = Some (Some p))
                 = bool_decide (t = t /\ multi_current s !! t = Some (Some p)))
      by (apply bool_decide_ext; split; [done | by intros []]).
    rewrite Hb. eexists; split; [reflexivity|done].
Qed.

Lemma Context_current_mono (p : addr) (caller : thread_id) (s : state) :
  is_mono s p ->
  Context_current p caller s = Ok (bool_decide (mono_current s = Some p)) s.
Proof. intros (o & Ho & Hdyn). unfold_ctx. by rewrite Ho, Hdyn. Qed.

(** C3.  [A] bound to thread [T1], [B] bound to a different thread [T2]:
    [T1] calling [A.make_current()] and [T2] calling [B.make_current()]
    both return in either order, both orders leave the same map, in which
    [A.current()] is true on [T1] and [B.current()] is true on [T2]; and
    neither call touches the slot of the other thread. *)
Theorem multi_make_current_threads_independent
    (A B : addr) (T1 T2 : thread_id) (s : state) :
  is_multi s A T1 ->
  is_multi s B T2 ->
  T1 ≠ T2 ->
  exists s12 s21,
    (MultiContext_impl_make_current A T1 ;;;
     MultiContext_impl_make_current B T2) s = Ok tt s12
    /\ (MultiContext_impl_make_current B T2 ;;;
        MultiContext_impl_make_current A T1) s = Ok tt s21
    /\ multi_current s12 = multi_current s21
    /\ is_current_on s12 T1 A true /\ is_current_on s12 T2 B true
    /\ is_current_on s21 T1 A true /\ is_current_on s21 T2 B true
    /\ (forall sA, MultiContext_impl_make_current A T1 s = Ok tt sA ->
          multi_current sA !! T2 = multi_current s !! T2)
    /\ (forall sB, MultiContext_impl_make_current B T2 s = Ok tt sB ->
          multi_current sB !! T1 = multi_current s !! T1).
Proof.
  intros HA HB Hne.
  destruct (multi_make_current_own_thread A T1 s HA) as (sA & HrA & HhA & _ & HmA).
  destruct (multi_make_current_own_thread B T2 s HB) as (sB & HrB & HhB & _ & HmB).
  destruct (multi_make_current_own_thread B T2 sA (is_multi_heap _ _ _ _ HhA HB))
    as (s12 & Hr12 & Hh12 & _ & Hm12).
  destruct (multi_make_current_own_thread A T1 sB (is_multi_heap _ _ _ _ HhB HA))
    as (s21 & Hr21 & Hh21 & _ & Hm21).
  assert (Hq : forall s' p t, heap s' = heap s -> is_multi s p t ->
             multi_current s' !! t = Some (Some p) -> is_current_on s' t p true).
  { intros s' p t Hh Hp Hslot.
    destruct (Context_current_multi p t t s' (is_multi_heap _ _ _ _ Hh Hp))
      as (s'' & Hc & _).
    exists s''. rewrite Hc. by rewrite bool_decide_eq_true_2. }
  exists s12, s21.
  split. { unfold bind at 1. by rewrite HrA. }
  split. { unfold bind at 1. by rewrite HrB. }
  split. { rewrite Hm12, Hm21, HmA, HmB. by apply insert_insert_ne. }
  split. { apply Hq; [congruence|done|].
           rewrite Hm12, HmA. rewrite lookup_insert_ne by done.
           apply lookup_insert_eq. }
  split. { apply Hq; [congruence|done|]. rewrite Hm12. apply lookup_insert_eq. }
  split. { apply Hq; [congruence|done|]. rewrite Hm21. apply lookup_insert_eq. }
  split. { apply Hq; [congruence|done|].
           rewrite Hm21, HmB. rewrite lookup_insert_ne by done.
           apply lookup_insert_eq. }
  split.
  - intros sA' H. rewrite HrA in H. injection H as <-.
    rewrite HmA. by apply lookup_insert_ne.
  - intros sB' H. rewrite HrB in H. injection H as <-.
    rewrite HmB. apply lookup_insert_ne. congruence.
Qed.

(** The example states are what the constructors produce from process start. *)
Example demo_mono_constructed :
  exec demo_driver 0 (NewMono 1 0) init_state = Ok RVoid demo_mono.
Proof. vm_compute. reflexivity. Qed.

Example demo_multi_constructed :
  exec demo_driver 0 (NewMulti 1 0) init_state = Ok RVoid demo_multi.
Proof. vm_compute. reflexivity. Qed.

Lemma demo_mono_is_mono : is_mono demo_mono 1.
Proof. eexists. split; [vm_compute; reflexivity | reflexivity]. Qed.

Lemma demo_multi_is_multi : is_multi demo_multi 1 0.
Proof. eexists. split; [vm_compute; reflexivity | reflexivity]. Qed.

Lemma demo_two_threads_is_multi_1 : is_multi demo_two_threads 1 0.
Proof. eexists. split; [vm_compute; reflexivity | reflexivity]. Qed.

Lemma demo_two_threads_is_multi_2 : is_multi demo_two_threads 2 1.
Proof. eexists. split; [vm_compute; reflexivity | reflexivity]. Qed.

Lemma mono_make_current_switch_witness :
  (1 ≠ 2)%positive
  /\ exists s2,
       (MonoContext_impl_make_current 1 ;;; MonoContext_impl_make_current 2)
         init_state = Ok tt s2
       /\ hook_count 1 (since init_state s2) = 1%nat.
Proof.
  split; [done|].
  destruct (mono_make_current_switch 1 2 init_state ltac:(done))
    as (s2 & sA & sB & pre & Hrun & _ & _ & _ & _ & _ & Hcount).
  exists s2. split; [exact Hrun | exact Hcount].
Defined.

Lemma multi_make_current_foreign_thread_throws_witness :
  is_multi demo_multi 1 0
  /\ 1%nat ≠ 0%nat
  /\ exists s',
       MultiContext_impl_make_current 1 1 demo_multi
         = Throw (gl_exception "attempt to make Context current on another thread") s'
       /\ multi_current s' = multi_current demo_multi.
Proof.
  split; [exact demo_multi_is_multi|]. split; [done|].
  destruct (multi_make_current_foreign_thread_throws 1 0 1 demo_multi
              demo_multi_is_multi ltac:(done)) as (s' & H1 & _ & H2 & _).
  exists s'. split; [exact H1 | exact H2].
Defined.

Lemma multi_current_foreign_thread_false_witness :
  is_multi demo_multi 1 0
  /\ 1%nat ≠ 0%nat
  /\ exists s',
       MultiContext_impl_current 1 1 demo_multi = Ok false s'
       /\ s' = demo_multi.
Proof.
  split; [exact demo_multi_is_multi|]. split; [done|].
  destruct (multi_current_foreign_thread_false 1 0 1 demo_multi
              demo_multi_is_multi ltac:(done)) as (s' & H1 & _ & H2 & _).
  exists s'. split; [exact H1 | exact H2].
Defined.

(** C5 as stated fails: the object of [demo_multi] is bound to thread 0, and
    [current()] called on thread 1 returns false normally; no exception
    reaches the caller. *)
Lemma multi_foreign_query_is_not_an_error :
  is_multi demo_multi 1 0
  /\ 1%nat ≠ 0%nat
  /\ Context_current 1 1 demo_multi = Ok false demo_multi
  /\ ~ (exists e s', Context_current 1 1 demo_multi = Throw e s').
Proof.
  split; [exact demo_multi_is_multi|]. split; [done|].
  assert (H : Context_current 1 1 demo_multi = Ok false demo_multi)
    by (vm_compute; reflexivity).
  split; [exact H|]. intros (e & s' & Hthrow). rewrite H in Hthrow. done.
Qed.

Lemma multi_foreign_query_returns_false_only_make_current_throws_witness :
  is_multi demo_multi 1 0
  /\ 1%nat ≠ 0%nat
  /\ Context_current 1 1 demo_multi = Ok false demo_multi.
Proof.
  split; [exact demo_multi_is_multi|]. split; [done|].
  exact (proj1 (proj2
    (multi_foreign_query_returns_false_only_make_current_throws
       1 0 1 demo_multi demo_multi_is_multi ltac:(done)))).
Defined.

Lemma make_current_idempotent_witness :
  Context_current 1 0 demo_mono = Ok true demo_mono
  /\ exists s',
       Context_make_current 1 0 demo_mono = Ok tt s'
       /\ mono_current s' = mono_current demo_mono
       /\ hooks (since demo_mono s') = [].
Proof.
  assert (H : Context_current 1 0 demo_mono = Ok true demo_mono)
    by (vm_compute; reflexivity).
  split; [exact H|].
  destruct (make_current_idempotent 1 0 demo_mono demo_mono H)
    as (s' & H1 & H2 & _ & _ & H3).
  exists s'. split; [exact H1|]. split; [exact H2 | exact H3].
Defined.

Lemma multi_make_current_threads_independent_witness :
  is_multi demo_two_threads 1 0
  /\ is_multi demo_two_threads 2 1
  /\ 0%nat ≠ 1%nat
  /\ exists s12 s21,
       (MultiContext_impl_make_current 1 0 ;;;
        MultiContext_impl_make_current 2 1) demo_two_threads = Ok tt s12
       /\ (MultiContext_impl_make_current 2 1 ;;;
           MultiContext_impl_make_current 1 0) demo_two_threads = Ok tt s21
       /\ multi_current s12 = multi_current s21.
Proof.
  split; [exact demo_two_threads_is_multi_1|].
  split; [exact demo_two_threads_is_multi_2|]. split; [done|].
  destruct (multi_make_current_threads_independent 1 2 0 1 demo_two_threads
              demo_two_threads_is_multi_1 demo_two_threads_is_multi_2
              ltac:(done)) as (s12 & s21 & H1 & H2 & H3 & _).
  exists s12, s21. split; [exact H1|]. split; [exact H2 | exact H3].
Defined.

(** ** The typed parameter reader *)

Lemma get_out_unfold (gl : Driver) (GET : GLenum -> gl_call) (context : addr)
    (caller : thread_id) (param : GLenum) (s : state) :
  get_out gl GET context caller param s
  = match Context_current context caller s with
    | Ok true s1 =>
        let r := drv_reply gl (trace s1) (GET param) in
        if decide (error r = 0) then Ok (written r) (called (GET param) s1)
        else Throw (driver_error (error r)) (called (GET param) s1)
    | Ok false s1 =>
        Throw (gl_exception "can't get param from inactive context") s1
    | Throw e s1 => Throw e s1
    | Undefined => Undefined
    end.
Proof.
  unfold get_out, bind at 1.
  destruct (Context_current context caller s) as [[|] s1|e s1|]; try done.
  simpl. unfold bind, GL_CALL, called, ret. simpl.
  by destruct (decide _).
Qed.

(** [get<T>] in terms of the currency check and the driver's reply. *)
Lemma get_unfold (gl : Driver) (T : gl_type) (context : addr)
    (caller : thread_id) (param : GLenum) (s : state) :
  get gl T context caller param s
  = match Context_current context caller s with
    | Ok true s1 =>
        let q := native_query T param in
        let r := drv_reply gl (trace s1) q in
        if decide (error r = 0) then
          match reported T (written r) with
          | Some v => Ok v (called q s1)
          | None => Undefined
          end
        else Throw (driver_error (error r)) (called q s1)
    | Ok false s1 =>
        Throw (gl_exception "can't get param from inactive context") s1
    | Throw e s1 => Throw e s1
    | Undefined => Undefined
    end.
Proof.
  destruct T; simpl; unfold get_single; unfold bind;
    rewrite get_out_unfold;
    (destruct (Context_current context caller s) as [[|] s1|e s1|];
     [|done|done|done]); simpl;
    (destruct (decide _); [|done]);
    (destruct (written _) as [|v1 [|v2 [|v3 [|v4 [|v5 rest]]]]]; done).
Qed.

(** C8.  For every instantiation [T], [get<T>(context, param)] throws the
    inactive-context exception exactly when [context.current()] returns
    false.  When it returns true, the one typed native query of [T] is
    issued: if the driver signals an error the checking wrapper's exception
    propagates, otherwise the result is exactly the value the driver
    reported. *)
Theorem get_inactive_iff_not_current
    (gl : Driver) (T : gl_type) (context : addr) (caller : thread_id)
    (param : GLenum) (s : state) :
  ((exists s', get gl T context caller param s
               = Throw (gl_exception "can't get param from inactive context") s')
   <-> is_current_on s caller context false)
  /\ (forall s1, Context_current context caller s = Ok true s1 ->
        let q := native_query T param in
        let r := drv_reply gl (trace s1) q in
        (error r ≠ 0 ->
           get gl T context caller param s
           = Throw (driver_error (error r)) (called q s1))
        /\ (forall v, error r = 0 -> reported T (written r) = Some v ->
              get gl T context caller param s = Ok v (called q s1))).
Proof.
  rewrite get_unfold. unfold is_current_on. split.
  - destruct (Context_current context caller s) as [[|] s1|e s1|] eqn:Hc.
    + split; [|intros (s' & ?); done].
      intros (s' & H). simpl in H.
      destruct (decide _); [destruct (reported _ _)|]; done.
    + split; eauto.
    + by apply Context_current_no_throw in Hc.
    + split; [intros (s' & ?); done | intros (s' & ?); done].
  - intros s1 Hc. cbv zeta. rewrite Hc. simpl.
    set (r := drv_reply gl (trace s1) (native_query T param)). split.
    + intros Herr. by destruct (decide (error r = 0)).
    + intros v Herr Hv. destruct (decide (error r = 0)); [|done].
      by rewrite Hv.
Qed.

Lemma get_inactive_iff_not_current_witness :
  Context_current 1 0 demo_mono = Ok true demo_mono
  /\ get demo_driver T_int 1 0 0x821B demo_mono
     = Ok 4 (called (glGetIntegerv 0x821B) demo_mono).
Proof.
  assert (H : Context_current 1 0 demo_mono = Ok true demo_mono)
    by (vm_compute; reflexivity).
  split; [exact H|].
  apply (proj2 (proj2 (get_inactive_iff_not_current demo_driver T_int 1 0
                         0x821B demo_mono) demo_mono H));
    reflexivity.
Defined.

(** ** Relations preserved by computations *)

Section Preserves.
Variable R : state -> state -> Prop.
Hypothesis R_refl : forall s, R s s.
Hypothesis R_trans : forall s1 s2 s3, R s1 s2 -> R s2 s3 -> R s1 s3.

Lemma preserves_ret {A} (a : A) : preserves R (ret a).
Proof. intros s s' [= <-]. apply R_refl. Qed.

Lemma preserves_throw {A} (e : exception) : preserves R (@throw A e).
Proof. intros s s' [= <-]. apply R_refl. Qed.

Lemma preserves_undefined {A} : preserves R (@undefined A).
Proof. intros s s' [=]. Qed.

Lemma preserves_bind {A B} (c : M A) (k : A -> M B) :
  preserves R c -> (forall a, preserves R (k a)) -> preserves R (bind c k).
Proof.
  intros Hc Hk s s'. unfold bind.
  destruct (c s) as [a s1|e s1|] eqn:Hcs; simpl.
  - intros H. apply (R_trans s s1 s'); [|by apply (Hk a)].
    apply Hc. by rewrite Hcs.
  - intros [= <-]. apply Hc. by rewrite Hcs.
  - done.
Qed.

Lemma preserves_class_of (p : addr) : preserves R (class_of p).
Proof.
  intros s s'. unfold class_of. destruct (heap s !! p); [|done].
  intros [= <-]. apply R_refl.
Qed.

Lemma preserves_load_clear_mask (p : addr) : preserves R (load_clear_mask p).
Proof.
  intros s s'. unfold load_clear_mask. destruct (heap s !! p); [|done].
  intros [= <-]. apply R_refl.
Qed.

Lemma preserves_load_mono : preserves R load_mono.
Proof. intros s s' [= <-]. apply R_refl. Qed.

Lemma preserves_find_multi (t : thread_id) : preserves R (find_multi t).
Proof. intros s s' [= <-]. apply R_refl. Qed.
End Preserves.

Lemma preserves_weaken (R R' : state -> state -> Prop) {A} (c : M A) :
  (forall s s', R s s' -> R' s s') -> preserves R c -> preserves R' c.
Proof. intros HR Hc s s' H. apply HR, Hc, H. Qed.

(** Decompose a goal [preserves R c] along the structure of [c]; [tac]
    closes the leaves. *)
Ltac preserves_structure Hrefl Htrans tac :=
  repeat first
    [ tac
    | apply (preserves_bind _ Htrans); [|intros]
    | apply (preserves_ret _ Hrefl)
    | apply (preserves_throw _ Hrefl)
    | apply preserves_undefined
    | apply (preserves_class_of _ Hrefl)
    | apply (preserves_load_clear_mask _ Hrefl)
    | apply (preserves_load_mono _ Hrefl)
    | apply (preserves_find_multi _ Hrefl)
    | match goal with
      | |- preserves _ (match ?x with _ => _ end) => destruct x
      end ].

Lemma same_registry_refl (s : state) : same_registry s s.
Proof. done. Qed.

Lemma same_registry_trans (s1 s2 s3 : state) :
  same_registry s1 s2 -> same_registry s2 s3 -> same_registry s1 s3.
Proof. unfold same_registry. intros (-> & -> & ->) (-> & -> & ->). done. Qed.

Lemma same_registry_emit (e : event) : preserves same_registry (emit e).
Proof. intros s s' [= <-]. done. Qed.

Lemma same_registry_GL_CALL (gl : Driver) (c : gl_call) :
  preserves same_registry (GL_CALL gl c).
Proof.
  intros s s'. unfold GL_CALL. destruct (decide _); intros [= <-]; done.
Qed.

Ltac same_registry_tac :=
  preserves_structure same_registry_refl same_registry_trans
    ltac:(first [ apply same_registry_emit | apply same_registry_GL_CALL ]).

Lemma same_registry_Context_current (c : addr) (caller : thread_id) :
  preserves same_registry (Context_current c caller).
Proof.
  unfold Context_current, MonoContext_impl_current, MultiContext_impl_current,
    MultiContext_impl_thread_id.
  same_registry_tac.
Qed.

Lemma same_registry_get (gl : Driver) (T : gl_type) (c : addr)
    (caller : thread_id) (param : GLenum) :
  preserves same_registry (get gl T c caller param).
Proof.
  destruct T; unfold get, get_single, get_out;
    preserves_structure same_registry_refl same_registry_trans
      ltac:(first [ apply same_registry_Context_current
                  | apply same_registry_GL_CALL ]).
Qed.

(** Every call other than a construction, [make_current()] and a
    destruction leaves heap and registries alone. *)
Lemma same_registry_exec (gl : Driver) (caller : thread_id) (a : action) :
  quiet a = true -> (forall c, a ≠ Delete c) ->
  preserves same_registry (exec gl caller a).
Proof.
  intros Hq Hd. destruct a; try done; try (by destruct (Hd c));
    unfold exec, on_live, Context_get, Context_major_version,
      Context_minor_version, Context_clear, Context_clear_mask,
      Context_clear_color, Context_enable, Context_disable,
      Context_is_enabled;
    preserves_structure same_registry_refl same_registry_trans
      ltac:(first [ apply same_registry_Context_current
                  | apply same_registry_get
                  | apply same_registry_GL_CALL ]).
Qed.

(** ** Destruction of the current instance *)

Lemma slots_only_cleared_refl (s : state) : slots_only_cleared s s.
Proof. split; auto. Qed.

Lemma slots_only_cleared_trans (s1 s2 s3 : state) :
  slots_only_cleared s1 s2 -> slots_only_cleared s2 s3 ->
  slots_only_cleared s1 s3.
Proof.
  intros [Hm12 Ht12] [Hm23 Ht23]. split.
  - destruct Hm23 as [->| ->]; auto.
  - intros t. destruct (Ht23 t) as [->| ->]; auto.
Qed.

Lemma same_registry_slots (s s' : state) :
  same_registry s s' -> slots_only_cleared s s'.
Proof. intros (_ & Hm & Ht). split; [by left | intros t; left; by rewrite Ht]. Qed.

Lemma slots_only_cleared_erase_multi (t : thread_id) :
  preserves slots_only_cleared (erase_multi t).
Proof.
  intros s s' [= <-]. split; simpl; [by left|]. intros t'.
  destruct (decide (t' = t)) as [->|].
  - right. apply lookup_delete_eq.
  - left. by apply lookup_delete_ne.
Qed.

Lemma slots_only_cleared_store_mono_null :
  preserves slots_only_cleared (store_mono None).
Proof. intros s s' [= <-]. split; simpl; auto. Qed.

Lemma slots_only_cleared_free (p : addr) :
  preserves slots_only_cleared (free p).
Proof. intros s s' [= <-]. split; simpl; auto. Qed.

Lemma slots_only_cleared_Context_dtor (c : addr) (caller : thread_id) :
  preserves slots_only_cleared (Context_dtor c caller).
Proof.
  unfold Context_dtor, MonoContext_impl_dtor, MultiContext_impl_dtor,
    MultiContext_impl_thread_id, Context_impl_dtor.
  preserves_structure slots_only_cleared_refl slots_only_cleared_trans
    ltac:(first
      [ apply (preserves_weaken same_registry _ _ same_registry_slots),
          same_registry_emit
      | apply slots_only_cleared_erase_multi
      | apply slots_only_cleared_store_mono_null
      | apply slots_only_cleared_free ]).
Qed.

Lemma slots_only_cleared_exec (gl : Driver) (caller : thread_id) (a : action) :
  quiet a = true -> preserves slots_only_cleared (exec gl caller a).
Proof.
  intros Hq.
  assert (Hcase : (exists c, a = Delete c) \/ (forall c, a ≠ Delete c)).
  { destruct a; first [ left; eexists; reflexivity | right; intros c' ?; discriminate ]. }
  destruct Hcase as [[c ->]|Hd].
  - unfold exec.
    preserves_structure slots_only_cleared_refl slots_only_cleared_trans
      ltac:(apply slots_only_cleared_Context_dtor).
  - apply (preserves_weaken same_registry _ _ same_registry_slots).
    by apply same_registry_exec.
Qed.

Lemma slots_only_cleared_run (gl : Driver) (prog : list (thread_id * action))
    (s s' : state) :
  quiet_prog prog -> run gl prog s = Some s' -> slots_only_cleared s s'.
Proof.
  intros Hq. revert s. induction Hq as [|[caller a] prog Ha _ IH]; intros s.
  - intros [= <-]. apply slots_only_cleared_refl.
  - simpl. destruct (state_after (exec gl caller a s)) as [s1|] eqn:Hs1; [|done].
    intros Hrun. apply (slots_only_cleared_trans s s1 s'); [|by apply IH].
    by apply (slots_only_cleared_exec gl caller a Ha).
Qed.

(** C7.  Destroying the instance that is current empties its slot: the
    process-wide reference for a [MonoContext_impl], the creating thread's
    map entry for a [MultiContext_impl].  The slot then stays empty through
    every sequence of calls that contains neither a construction nor a
    [make_current()], and at each such point [current()] of every live
    instance of that class, asked for that slot, returns false. *)
Theorem destroy_current_empties_slot (gl : Driver) :
  (forall A caller s,
      is_mono s A -> mono_current s = Some A ->
      exists s',
        Context_dtor A caller s = Ok tt s'
        /\ mono_current s' = None
        /\ heap s' !! A = None
        /\ forall prog s'',
             quiet_prog prog -> run gl prog s' = Some s'' ->
             mono_current s'' = None
             /\ forall X t, is_mono s'' X -> is_current_on s'' t X false)
  /\ (forall A tA caller s,
        is_multi s A tA -> multi_current s !! tA = Some (Some A) ->
        exists s',
          Context_dtor A caller s = Ok tt s'
          /\ multi_current s' !! tA = None
          /\ heap s' !! A = None
          /\ forall prog s'',
               quiet_prog prog -> run gl prog s' = Some s'' ->
               multi_current s'' !! tA = None
               /\ forall X tX, is_multi s'' X tX -> is_current_on s'' tA X false).
Proof.
  split.
  - intros A caller s (o & Ho & Hdyn) Hcur.
    assert (Hd : exists s', Context_dtor A caller s = Ok tt s'
                            /\ mono_current s' = None /\ heap s' !! A = None).
    { unfold_ctx. rewrite Ho, Hdyn. simpl. rewrite Hcur.
      destruct (decide (Some A = Some A)); [|done]. simpl.
      eexists. split; [reflexivity|]. simpl. split; [done|].
      apply lookup_delete_eq. }
    destruct Hd as (s' & Hrun & Hnone & Hfree). exists s'.
    repeat (split; [done|]). intros prog s'' Hq Hp.
    destruct (slots_only_cleared_run gl prog s' s'' Hq Hp) as [Hm _].
    assert (Hm' : mono_current s'' = None) by (destruct Hm; congruence).
    split; [done|]. intros X t HX. exists s''.
    rewrite (Context_current_mono X t s'' HX), Hm'. done.
  - intros A tA caller s (o & Ho & Hdyn) Hcur.
    assert (Hd : exists s', Context_dtor A caller s = Ok tt s'
                            /\ multi_current s' !! tA = None
                            /\ heap s' !! A = None).
    { unfold_ctx. rewrite Ho, Hdyn. simpl. rewrite Ho, Hdyn. simpl.
      rewrite Hcur.
      destruct (decide (Some (Some A) = Some (Some A))); [|done]. simpl.
      eexists. split; [reflexivity|]. simpl.
      split; apply lookup_delete_eq. }
    destruct Hd as (s' & Hrun & Hnone & Hfree). exists s'.
    repeat (split; [done|]). intros prog s'' Hq Hp.
    destruct (slots_only_cleared_run gl prog s' s'' Hq Hp) as [_ Ht].
    assert (Ht' : multi_current s'' !! tA = None)
      by (destruct (Ht tA); congruence).
    split; [done|]. intros X tX HX.
    destruct (Context_current_multi X tX tA s'' HX) as (s3 & Hc & _).
    exists s3. rewrite Hc. rewrite bool_decide_eq_false_2; [done|].
    intros [-> H]. congruence.
Qed.

Lemma destroy_current_empties_slot_witness :
  is_mono demo_mono 1
  /\ mono_current demo_mono = Some 1%positive
  /\ is_multi demo_multi 1 0
  /\ multi_current demo_multi !! 0%nat = Some (Some 1%positive)
  /\ (exists s', Context_dtor 1 0 demo_mono = Ok tt s'
                 /\ mono_current s' = None)
  /\ (exists s', Context_dtor 1 0 demo_multi = Ok tt s'
                 /\ multi_current s' !! 0%nat = None).
Proof.
  assert (Hm : mono_current demo_mono = Some 1%positive) by reflexivity.
  assert (Ht : multi_current demo_multi !! 0%nat = Some (Some 1%positive))
    by (vm_compute; reflexivity).
  split; [exact demo_mono_is_mono|]. split; [exact Hm|].
  split; [exact demo_multi_is_multi|]. split; [exact Ht|]. split.
  - destruct (proj1 (destroy_current_empties_slot demo_driver)
                1%positive 0%nat demo_mono demo_mono_is_mono Hm)
      as (s' & H1 & H2 & _).
    exists s'. split; [exact H1 | exact H2].
  - destruct (proj2 (destroy_current_empties_slot demo_driver)
                1%positive 0%nat 0%nat demo_multi demo_multi_is_multi Ht)
      as (s' & H1 & H2 & _).
    exists s'. split; [exact H1 | exact H2].
Defined.

(** ** At most one current instance per scope *)

(** [current()] compares [this] with the one reference its scope holds, so
    two instances that both answer true are the same instance. *)
Lemma at_most_one_current_holds (s : state) : at_most_one_current s.
Proof.
  split.
  - intros a b ta tb Ha Hb [sa Hca] [sb Hcb].
    rewrite (Context_current_mono a ta s Ha) in Hca.
    rewrite (Context_current_mono b tb s Hb) in Hcb.
    injection Hca as Hca _. injection Hcb as Hcb _.
    apply bool_decide_eq_true in Hca, Hcb. congruence.
  - intros t a b ta tb Ha Hb [sa Hca] [sb Hcb].
    destruct (Context_current_multi a ta t s Ha) as (sa' & Hca' & _).
    destruct (Context_current_multi b tb t s Hb) as (sb' & Hcb' & _).
    rewrite Hca' in Hca. rewrite Hcb' in Hcb.
    injection Hca as Hca _. injection Hcb as Hcb _.
    apply bool_decide_eq_true in Hca, Hcb.
    destruct Hca as [-> Hca]. destruct Hcb as [-> Hcb]. congruence.
Qed.

Lemma registry_ok_init : registry_ok init_state.
Proof. split; [done|]. intros t i H. simpl in H. by rewrite lookup_empty in H. Qed.

Lemma registry_ok_same (s s' : state) :
  same_registry s s' -> registry_ok s -> registry_ok s'.
Proof.
  intros (Hh & Hm & Ht) [Hmono Hmulti]. unfold registry_ok, is_mono, is_multi.
  rewrite Hh, Hm, Ht. done.
Qed.

Lemma registry_ok_alloc (s s1 : state) (p : addr) (o : Context_impl) :
  registry_ok s -> heap s !! p = None ->
  heap s1 = <[p := o]> (heap s) ->
  mono_current s1 = mono_current s ->
  multi_current s1 = multi_current s ->
  registry_ok s1.
Proof.
  intros [Hmono Hmulti] Hp Hh Hm Ht. unfold registry_ok, is_mono, is_multi.
  rewrite Hh, Hm, Ht. split.
  - intros q Hq. destruct (Hmono q Hq) as (oq & Hoq & Hdyn).
    exists oq. rewrite lookup_insert_ne by congruence. done.
  - intros t i Hi. destruct (Hmulti t i Hi) as (q & -> & oq & Hoq & Hdyn).
    exists q. split; [done|]. exists oq.
    rewrite lookup_insert_ne by congruence. done.
Qed.

Lemma registry_ok_set_mono (s s' : state) (p : addr) :
  registry_ok s -> is_mono s p ->
  heap s' = heap s ->
  mono_current s' = Some p ->
  multi_current s' = multi_current s ->
  registry_ok s'.
Proof.
  intros [Hmono Hmulti] Hp Hh Hm Ht. unfold registry_ok, is_mono, is_multi.
  rewrite Hh, Hm, Ht. split; [|done]. by intros q [= <-].
Qed.

Lemma registry_ok_set_multi (s s' : state) (p : addr) (t : thread_id) :
  registry_ok s -> is_multi s p t ->
  heap s' = heap s ->
  mono_current s' = mono_current s ->
  multi_current s' = <[t := Some p]> (multi_current s) ->
  registry_ok s'.
Proof.
  intros [Hmono Hmulti] Hp Hh Hm Ht. unfold registry_ok, is_mono, is_multi.
  rewrite Hh, Hm, Ht. split; [done|]. intros t' i.
  destruct (decide (t = t')) as [<-|Hne].
  - rewrite lookup_insert_eq. intros [= <-]. eauto.
  - rewrite lookup_insert_ne by done. apply Hmulti.
Qed.

(** [MonoContext_impl::make_current] always returns, with [this] in the
    process-wide slot. *)
Lemma mono_make_current_effect (this : addr) (s : state) :
  exists s',
    MonoContext_impl_make_current this s = Ok tt s'
    /\ heap s' = heap s
    /\ mono_current s' = Some this
    /\ multi_current s' = multi_current s.
Proof.
  unfold_ctx. destruct (mono_current s) as [c|]; simpl.
  - destruct (decide (c ≠ this)); simpl; eexists; (split; [reflexivity|done]).
  - eexists; (split; [reflexivity|done]).
Qed.

(** What a destruction does to heap and registries. *)
Lemma Context_dtor_effect (c : addr) (caller : thread_id) (s s' : state) :
  state_after (Context_dtor c caller s) = Some s' ->
  exists o,
    heap s !! c = Some o
    /\ heap s' = delete c (heap s)
    /\ match dyn o with
       | Mono =>
           mono_current s'
           = (if decide (mono_current s = Some c) then None else mono_current s)
           /\ multi_current s' = multi_current s
       | Multi t =>
           mono_current s' = mono_current s
           /\ multi_current s'
              = (if decide (multi_current s !! t = Some (Some c))
                 then delete t (multi_current s) else multi_current s)
       end.
Proof.
  unfold_ctx. destruct (heap s !! c) as [o|] eqn:Ho; [|done]. simpl.
  intros H. exists o. split; [done|]. revert H.
  destruct (dyn o) as [|t] eqn:Hdyn; simpl.
  - destruct (decide (mono_current s = Some c)); simpl; intros [= <-]; done.
  - rewrite Ho. simpl. rewrite Hdyn. simpl.
    destruct (decide (multi_current s !! t = Some (Some c))); simpl;
      intros [= <-]; done.
Qed.

Lemma registry_ok_Context_dtor (c : addr) (caller : thread_id) (s s' : state) :
  registry_ok s -> state_after (Context_dtor c caller s) = Some s' ->
  registry_ok s'.
Proof.
  intros [Hmono Hmulti] Hd.
  destruct (Context_dtor_effect c caller s s' Hd) as (o & Ho & Hh & Hreg).
  unfold registry_ok, is_mono, is_multi. rewrite Hh.
  destruct (dyn o) as [|tc] eqn:Hdyn; destruct Hreg as [Hm Ht];
    rewrite Hm, Ht; split.
  - intros q Hq. destruct (decide (mono_current s = Some c)); [done|].
    destruct (Hmono q Hq) as (oq & Hoq & Hdq). exists oq.
    rewrite lookup_delete_ne by congruence. done.
  - intros t i Hi. destruct (Hmulti t i Hi) as (q & -> & oq & Hoq & Hdq).
    exists q. split; [done|]. exists oq.
    rewrite lookup_delete_ne by congruence. done.
  - intros q Hq. destruct (Hmono q Hq) as (oq & Hoq & Hdq). exists oq.
    rewrite lookup_delete_ne by congruence. done.
  - intros t i Hi.
    assert (Hi' : multi_current s !! t = Some i
                  /\ (t = tc -> multi_current s !! tc ≠ Some (Some c))).
    { destruct (decide (multi_current s !! tc = Some (Some c))) as [Heq|Hne].
      - destruct (decide (t = tc)) as [->|Hnt].
        + by rewrite lookup_delete_eq in Hi.
        + rewrite lookup_delete_ne in Hi by done. done.
      - done. }
    destruct Hi' as [Hi0 Hnc].
    destruct (Hmulti t i Hi0) as (q & -> & oq & Hoq & Hdq).
    exists q. split; [done|]. exists oq.
    rewrite lookup_delete_ne; [done|]. intros <-.
    assert (t = tc) as -> by congruence. by apply Hnc.
Qed.

(** Every call keeps the registries well-formed. *)
Lemma registry_ok_step (gl : Driver) (caller : thread_id) (a : action)
    (s s' : state) :
  registry_ok s -> step gl caller a s s' -> registry_ok s'.
Proof.
  intros Hok. unfold step.
  destruct (quiet a) eqn:Hq.
  - destruct a; try done;
      try (by intros H; eapply registry_ok_same;
              [eapply same_registry_exec; [done| |exact H]|done]).
    unfold exec, bind.
    destruct (Context_dtor c caller s) as [[] s1|e s1|] eqn:Hd; simpl;
      [| |done]; intros [= <-];
      eapply (registry_ok_Context_dtor c caller s); try done;
      by rewrite Hd.
  - destruct a; try done; unfold exec.
    + (* NewMono *)
      unfold MonoContext_ctor, MonoContext_impl_ctor, Context_impl_ctor.
      unfold bind at 1 2. unfold alloc at 1.
      destruct (heap s !! p) eqn:Hp; [done|].
      match goal with
      | |- context [MonoContext_impl_make_current p ?s1] =>
          destruct (mono_make_current_effect p s1) as (s2 & -> & Hh & Hm & Ht);
          assert (Hok1 : registry_ok s1)
            by (by eapply (registry_ok_alloc s _ p))
      end.
      simpl. intros [= <-].
      eapply registry_ok_set_mono; [exact Hok1| |done..].
      eexists. simpl. split; [apply lookup_insert_eq|done].
    + (* NewMulti *)
      unfold MultiContext_impl_ctor, Context_impl_ctor.
      unfold bind at 1 2. unfold alloc at 1.
      destruct (heap s !! p) eqn:Hp; [done|].
      match goal with
      | |- context [MultiContext_impl_make_current p caller ?s1] =>
          assert (Hp1 : is_multi s1 p caller)
            by (eexists; simpl; split; [apply lookup_insert_eq|done]);
          destruct (multi_make_current_own_thread p caller s1 Hp1)
            as (s2 & -> & Hh & Hm & Ht);
          assert (Hok1 : registry_ok s1)
            by (by eapply (registry_ok_alloc s _ p))
      end.
      simpl. intros [= <-].
      by eapply registry_ok_set_multi.
    + (* MakeCurrent *)
      unfold Context_make_current. unfold bind at 1 2. unfold class_of at 1.
      destruct (heap s !! c) as [o|] eqn:Ho; [|done].
      destruct (dyn o) as [|t] eqn:Hdyn.
      * destruct (mono_make_current_effect c s) as (s2 & -> & Hh & Hm & Ht).
        simpl. intros [= <-].
        eapply registry_ok_set_mono; [exact Hok| |done..]. by exists o.
      * assert (Hc : is_multi s c t) by (by exists o).
        destruct (decide (caller = t)) as [->|Hne].
        -- destruct (multi_make_current_own_thread c t s Hc)
             as (s2 & -> & Hh & Hm & Ht).
           simpl. intros [= <-]. by eapply registry_ok_set_multi.
        -- destruct (multi_make_current_other_thread c t caller s Hc Hne)
             as (what & ->).
           simpl. by intros [= <-].
Qed.

Lemma reachable_registry_ok (gl : Driver) (s : state) :
  reachable gl s -> registry_ok s.
Proof.
  induction 1 as [|s caller a s' _ IH Hstep]; [apply registry_ok_init|].
  by eapply registry_ok_step.
Qed.

Lemma reachable_run (gl : Driver) (prog : list (thread_id * action))
    (s s' : state) :
  reachable gl s -> run gl prog s = Some s' -> reachable gl s'.
Proof.
  revert s. induction prog as [|[caller a] prog IH]; intros s Hs; simpl.
  - by intros [= <-].
  - destruct (state_after (exec gl caller a s)) as [s1|] eqn:Hs1; [|done].
    apply IH. by eapply reachable_step.
Qed.

(** C4.  At process start, after every single call (construction,
    [make_current()], [current()], destruction and all others) and
    therefore at every reachable state, at most one [MonoContext_impl]
    answers [current()] with true in the whole process, and for each thread
    at most one [MultiContext_impl] does so on that thread.  At a reachable
    state the references behind those answers are to live objects of the
    right class and thread. *)
Theorem at_most_one_current_invariant (gl : Driver) :
  at_most_one_current init_state
  /\ (forall s caller a s',
        at_most_one_current s -> step gl caller a s s' ->
        at_most_one_current s')
  /\ (forall s, reachable gl s -> at_most_one_current s /\ registry_ok s).
Proof.
  split; [apply at_most_one_current_holds|].
  split; [intros; apply at_most_one_current_holds|].
  intros s Hs. split; [apply at_most_one_current_holds|].
  by eapply reachable_registry_ok.
Qed.

Lemma at_most_one_current_invariant_witness :
  reachable demo_driver demo_mono
  /\ at_most_one_current demo_mono
  /\ registry_ok demo_mono.
Proof.
  assert (Hr : reachable demo_driver demo_mono).
  { apply (reachable_step demo_driver init_state 0 (NewMono 1 0));
      [apply reachable_init|].
    unfold step. by rewrite demo_mono_constructed. }
  split; [exact Hr|].
  exact (proj2 (proj2 (at_most_one_current_invariant demo_driver)) demo_mono Hr).
Defined.

(** ** The stored clear mask *)

Lemma forget_masks_eq (s1 s2 : state) :
  forget_masks s1 = forget_masks s2 ->
  erase_mask <$> heap s1 = erase_mask <$> heap s2
  /\ mono_current s1 = mono_current s2
  /\ multi_current s1 = multi_current s2
  /\ trace s1 = trace s2.
Proof. unfold forget_masks. by intros [= -> -> -> ->]. Qed.

Lemma forget_masks_lookup (s1 s2 : state) (p : addr) :
  forget_masks s1 = forget_masks s2 ->
  erase_mask <$> (heap s1 !! p) = erase_mask <$> (heap s2 !! p).
Proof.
  intros H. apply forget_masks_eq in H as (Hh & _).
  by rewrite <- !lookup_fmap, Hh.
Qed.

Lemma mask_independent_ret {A} (a : A) : mask_independent (ret a).
Proof. intros s1 s2 H. unfold ret. simpl. by rewrite H. Qed.

Lemma mask_independent_throw {A} (e : exception) :
  mask_independent (@throw A e).
Proof. intros s1 s2 H. unfold throw. simpl. by rewrite H. Qed.

Lemma mask_independent_undefined {A} : mask_independent (@undefined A).
Proof. by intros s1 s2 H. Qed.

Lemma mask_independent_bind {A B} (c : M A) (k : A -> M B) :
  mask_independent c -> (forall a, mask_independent (k a)) ->
  mask_independent (bind c k).
Proof.
  intros Hc Hk s1 s2 H. unfold bind. specialize (Hc s1 s2 H).
  destruct (c s1) as [a1 t1|e1 t1|], (c s2) as [a2 t2|e2 t2|];
    simpl in Hc; try done.
  - assert (a1 = a2) as -> by congruence.
    apply Hk. congruence.
  - simpl. congruence.
Qed.

Lemma mask_independent_class_of (p : addr) : mask_independent (class_of p).
Proof.
  intros s1 s2 H. unfold class_of.
  pose proof (forget_masks_lookup s1 s2 p H) as Hp.
  destruct (heap s1 !! p) as [o1|], (heap s2 !! p) as [o2|];
    simpl in Hp; try done.
  injection Hp as _ Hd. simpl. by rewrite Hd, H.
Qed.

Lemma mask_independent_load_mono : mask_independent load_mono.
Proof.
  intros s1 s2 H. unfold load_mono. simpl.
  destruct (forget_masks_eq _ _ H) as (_ & -> & _). by rewrite H.
Qed.

Lemma mask_independent_find_multi (t : thread_id) :
  mask_independent (find_multi t).
Proof.
  intros s1 s2 H. unfold find_multi. simpl.
  destruct (forget_masks_eq _ _ H) as (_ & _ & -> & _). by rewrite H.
Qed.

(** A write that does not look at the heap. *)
Ltac mask_independent_write :=
  let H := fresh in
  intros ? ? H; apply forget_masks_eq in H as (? & ? & ? & ?);
  simpl; unfold forget_masks; simpl; congruence.

Lemma mask_independent_emit (e : event) : mask_independent (emit e).
Proof. unfold emit. mask_independent_write. Qed.

Lemma mask_independent_store_mono (p : option addr) :
  mask_independent (store_mono p).
Proof. unfold store_mono. mask_independent_write. Qed.

Lemma mask_independent_store_multi (t : thread_id) (p : option addr) :
  mask_independent (store_multi t p).
Proof. unfold store_multi. mask_independent_write. Qed.

Lemma mask_independent_erase_multi (t : thread_id) :
  mask_independent (erase_multi t).
Proof. unfold erase_multi. mask_independent_write. Qed.

Lemma mask_independent_free (p : addr) : mask_independent (free p).
Proof.
  intros s1 s2 H. apply forget_masks_eq in H as (Hh & ? & ? & ?).
  unfold free. simpl. unfold forget_masks. simpl.
  rewrite !fmap_delete, Hh. congruence.
Qed.

Lemma mask_independent_alloc (p : addr) (o : Context_impl) :
  mask_independent (alloc p o).
Proof.
  intros s1 s2 H. unfold alloc.
  pose proof (forget_masks_lookup s1 s2 p H) as Hp.
  apply forget_masks_eq in H as (Hh & ? & ? & ?).
  destruct (heap s1 !! p) as [o1|], (heap s2 !! p) as [o2|];
    simpl in Hp; try done.
  simpl. unfold forget_masks. simpl. rewrite !fmap_insert, Hh. congruence.
Qed.

Lemma mask_independent_GL_CALL (gl : Driver) (c : gl_call) :
  mask_independent (GL_CALL gl c).
Proof.
  intros s1 s2 H. apply forget_masks_eq in H as (Hh & ? & ? & Htr).
  unfold GL_CALL. rewrite Htr.
  destruct (decide _); simpl; unfold forget_masks; simpl; congruence.
Qed.

Ltac mask_independent_structure :=
  repeat first
    [ apply mask_independent_bind; [|intros]
    | apply mask_independent_ret
    | apply mask_independent_throw
    | apply mask_independent_undefined
    | apply mask_independent_class_of
    | apply mask_independent_load_mono
    | apply mask_independent_find_multi
    | apply mask_independent_emit
    | apply mask_independent_store_mono
    | apply mask_independent_store_multi
    | apply mask_independent_erase_multi
    | apply mask_independent_free
    | apply mask_independent_alloc
    | apply mask_independent_GL_CALL
    | match goal with
      | |- mask_independent (match ?x with _ => _ end) => destruct x
      end ].

(** Every call except the no-argument [clear()] behaves the same whatever
    the stored masks are. *)
Lemma mask_independent_exec (gl : Driver) (caller : thread_id) (a : action) :
  consults_mask a = false -> mask_independent (exec gl caller a).
Proof.
  intros Ha. destruct a as [| | | | | | | |T| | | | |]; try done;
    try destruct T;
    unfold exec, on_live, MonoContext_ctor, MonoContext_impl_ctor,
      MultiContext_impl_ctor, Context_impl_ctor, Context_make_current,
      Context_current, Context_dtor, Context_get, Context_major_version,
      Context_minor_version, Context_clear_mask, Context_clear_color,
      Context_enable, Context_disable, Context_is_enabled,
      get, get_single, get_out, Context_current,
      MonoContext_impl_make_current, MonoContext_impl_current,
      MonoContext_impl_dtor, MultiContext_impl_make_current,
      MultiContext_impl_current, MultiContext_impl_dtor,
      MultiContext_impl_thread_id, Context_impl_make_current,
      Context_impl_on_made_not_current, Context_impl_dtor, index_multi;
    mask_independent_structure.
Qed.

(** Both constructors leave the new object with the color-buffer bit as its
    stored mask. *)
Lemma ctor_clear_mask (gl : Driver) (p : addr) (handle : Z)
    (caller : thread_id) (s s' : state) (r : retval) :
  exec gl caller (NewMono p handle) s = Ok r s'
  \/ exec gl caller (NewMulti p handle) s = Ok r s' ->
  _clear_mask <$> heap s' !! p = Some (GL_COLOR_BUFFER_BIT gl).
Proof.
  unfold exec, MonoContext_ctor, MonoContext_impl_ctor,
    MultiContext_impl_ctor, Context_impl_ctor.
  unfold bind at 1 2 3 4. unfold alloc at 1 2.
  destruct (heap s !! p) eqn:Hp; [by intros [|]|].
  intros [H|H]; revert H.
  - match goal with
    | |- context [MonoContext_impl_make_current p ?s1] =>
        destruct (mono_make_current_effect p s1) as (s2 & -> & Hh & _)
    end.
    simpl. intros [= _ <-]. rewrite Hh. simpl.
    by rewrite lookup_insert_eq.
  - match goal with
    | |- context [MultiContext_impl_make_current p caller ?s1] =>
        assert (Hp1 : is_multi s1 p caller)
          by (eexists; simpl; split; [apply lookup_insert_eq|done]);
        destruct (multi_make_current_own_thread p caller s1 Hp1)
          as (s2 & -> & Hh & _)
    end.
    simpl. intros [= _ <-]. rewrite Hh. simpl.
    by rewrite lookup_insert_eq.
Qed.

(** The no-argument [clear()] does depend on the stored mask. *)
Lemma clear_consults_stored_mask :
  ~ mask_independent (exec demo_driver 0 (Clear 1)).
Proof.
  intros H.
  specialize (H demo_mono
    {| heap := {[ 1%positive := mk_impl 0x100 0 Mono ]};
       mono_current := Some 1%positive; multi_current := ∅;
       trace := [EvStoreMono (Some 1%positive)] |}).
  vm_compute in H. specialize (H eq_refl). discriminate H.
Qed.

(** C10.  [clear(mask)] issues exactly one driver call, [glClear(mask)]
    with the mask it was given, and leaves the heap, hence every stored
    [_clear_mask], as it was.  The stored mask is the color-buffer bit after
    either constructor; the no-argument [clear()] issues [glClear] with the
    stored mask; and every other call is independent of the stored masks. *)
Theorem clear_mask_explicit_frame (gl : Driver) :
  (forall this mask s,
      exists s',
        state_after (Context_clear_mask gl this mask s) = Some s'
        /\ since s s' = [EvGL (glClear mask)]
        /\ heap s' = heap s
        /\ forall p, _clear_mask <$> heap s' !! p = _clear_mask <$> heap s !! p)
  /\ (forall p handle caller s s' r,
        exec gl caller (NewMono p handle) s = Ok r s'
        \/ exec gl caller (NewMulti p handle) s = Ok r s' ->
        _clear_mask <$> heap s' !! p = Some (GL_COLOR_BUFFER_BIT gl))
  /\ (forall this s o,
        heap s !! this = Some o ->
        exists s',
          state_after (Context_clear gl this s) = Some s'
          /\ since s s' = [EvGL (glClear (_clear_mask o))]
          /\ heap s' = heap s)
  /\ (forall caller a,
        consults_mask a = false -> mask_independent (exec gl caller a)).
Proof.
  split.
  { intros this mask s. exists (called (glClear mask) s).
    split; [|split; [by apply since_app|split; done]].
    unfold Context_clear_mask, bind, GL_CALL, ret, called.
    by destruct (decide _). }
  split.
  { intros p handle caller s s' r. apply ctor_clear_mask. }
  split.
  { intros this s o Ho. exists (called (glClear (_clear_mask o)) s).
    split; [|split; [by apply since_app|done]].
    unfold Context_clear, bind, load_clear_mask, GL_CALL, ret, called.
    rewrite Ho. by destruct (decide _). }
  intros caller a. apply mask_independent_exec.
Qed.

Lemma clear_mask_explicit_frame_witness :
  consults_mask (ClearMask 1 0x100) = false
  /\ mask_independent (exec demo_driver 0 (ClearMask 1 0x100))
  /\ exists s',
       state_after (Context_clear_mask demo_driver 1 0x100 demo_mono) = Some s'
       /\ since demo_mono s' = [EvGL (glClear 0x100)]
       /\ heap s' = heap demo_mono.
Proof.
  split; [reflexivity|].
  pose proof (clear_mask_explicit_frame demo_driver) as (H1 & _ & _ & H4).
  split; [apply H4; reflexivity|].
  destruct (H1 1%positive 0x100 demo_mono) as (s' & Ha & Hb & Hc & _).
  exists s'. split; [exact Ha|]. split; [exact Hb | exact Hc].
Defined.

(** ** Further properties: what make_current logs *)

Lemma hook_count_cons (a : addr) (e : event) (tr : list event) :
  hook_count a (e :: tr)
  = ((if decide (e = EvHook a) then 1 else 0) + hook_count a tr)%nat.
Proof. unfold hook_count. rewrite filter_cons. by destruct (decide _). Qed.

Lemma hook_count_nil (a : addr) : hook_count a [] = 0%nat.
Proof. done. Qed.

Ltac hook_count_simpl :=
  repeat first
    [ rewrite hook_count_app
    | rewrite hook_count_cons
    | rewrite hook_count_nil
    | case_decide; [congruence|] | case_decide; [|congruence]
    | case_decide ];
  simplify_eq; try done.

Lemma mono_make_current_trace (this : addr) (s : state) :
  exists s',
    MonoContext_impl_make_current this s = Ok tt s'
    /\ heap s' = heap s
    /\ mono_current s' = Some this
    /\ multi_current s' = multi_current s
    /\ trace s' = trace s ++ mono_make_current_events this (mono_current s).
Proof.
  unfold mono_make_current_events. unfold_ctx.
  destruct (mono_current s) as [c|]; simpl.
  - destruct (decide (c ≠ this)), (decide (c = this)); try done; simpl;
      eexists; (split; [reflexivity|]); simpl; repeat split; try done.
    by rewrite <- app_assoc.
  - eexists; (split; [reflexivity|]); done.
Qed.

Lemma multi_make_current_trace (this : addr) (t : thread_id) (s : state) :
  is_multi s this t ->
  exists s',
    MultiContext_impl_make_current this t s = Ok tt s'
    /\ heap s' = heap s
    /\ mono_current s' = mono_current s
    /\ multi_current s' = <[t := Some this]> (multi_current s)
    /\ trace s' = trace s
                  ++ multi_make_current_events this t (multi_current s !! t).
Proof.
  intros (o & Ho & Hdyn). unfold multi_make_current_events. unfold_ctx.
  rewrite Ho, Hdyn. simpl.
  destruct (decide (t ≠ t)); [done|]. simpl.
  destruct (multi_current s !! t) as [[c|]|] eqn:Hi; simpl.
  - destruct (decide (Some c ≠ Some this)) as [Hne|Heq],
      (decide (c = this)) as [->|Hne']; try done; simpl.
    + eexists; split; [reflexivity|]; simpl. repeat split; try done.
      by rewrite <- !app_assoc.
    + eexists; split; [reflexivity|]; simpl. repeat split; try done.
      * symmetry. by apply insert_id.
      * by rewrite <- !app_assoc.
    + destruct Heq. congruence.
  - destruct (decide (None ≠ Some this)) as [_|Hx]; [|by destruct Hx]. simpl.
    eexists; split; [reflexivity|]; simpl. repeat split; try done.
    by rewrite <- !app_assoc.
  - destruct (decide (None ≠ Some this)) as [_|Hx]; [|by destruct Hx]. simpl.
    eexists; split; [reflexivity|]; simpl. repeat split; try done.
    + by rewrite insert_insert_eq.
    + by rewrite <- !app_assoc.
Qed.

(** X1.  Two instances bound to the same thread [T]: after
    [A.make_current()] and then [B.make_current()] on [T], [A] is no longer
    current and [B] is; the hook of [A] runs exactly once, inside the locked
    region of the second call and before [B] is stored in the slot. *)
Theorem multi_make_current_switch (A B : addr) (T : thread_id) (s : state) :
  is_multi s A T ->
  is_multi s B T ->
  A ≠ B ->
  exists s2 pre,
    (MultiContext_impl_make_current A T ;;;
     MultiContext_impl_make_current B T) s = Ok tt s2
    /\ is_current_on s2 T A false
    /\ is_current_on s2 T B true
    /\ since s s2
       = pre ++ [EvLock T; EvHook A; EvStoreMulti T (Some B); EvUnlock T]
    /\ hook_count A pre = 0%nat
    /\ hook_count A (since s s2) = 1%nat.
Proof.
  intros HA HB Hne.
  destruct (multi_make_current_trace A T s HA)
    as (sA & HrA & HhA & _ & HmA & HtA).
  destruct (multi_make_current_trace B T sA (is_multi_heap _ _ _ _ HhA HB))
    as (s2 & HrB & HhB & _ & HmB & HtB).
  assert (Hslot : multi_current sA !! T = Some (Some A))
    by (rewrite HmA; apply lookup_insert_eq).
  rewrite Hslot in HtB. unfold multi_make_current_events at 1 in HtB.
  destruct (decide (A = B)); [done|]. simpl in HtB.
  set (pre := multi_make_current_events A T (multi_current s !! T)) in *.
  assert (Hpre : hook_count A pre = 0%nat).
  { subst pre. unfold multi_make_current_events.
    destruct (multi_current s !! T) as [[c|]|]; hook_count_simpl. }
  assert (Hs2 : multi_current s2 !! T = Some (Some B))
    by (rewrite HmB; apply lookup_insert_eq).
  assert (Hh2 : heap s2 = heap s) by congruence.
  exists s2, pre.
  split. { unfold bind. by rewrite HrA. }
  split.
  { destruct (Context_current_multi A T T s2 (is_multi_heap _ _ _ _ Hh2 HA))
      as (s3 & Hc & _).
    exists s3. rewrite Hc. rewrite bool_decide_eq_false_2; [done|].
    intros [_ H]. congruence. }
  split.
  { destruct (Context_current_multi B T T s2 (is_multi_heap _ _ _ _ Hh2 HB))
      as (s3 & Hc & _).
    exists s3. rewrite Hc. by rewrite bool_decide_eq_true_2. }
  assert (Hsince : since s s2
    = pre ++ [EvLock T; EvHook A; EvStoreMulti T (Some B); EvUnlock T]).
  { apply since_app. rewrite HtB, HtA. by rewrite <- app_assoc. }
  split; [done|]. split; [done|].
  rewrite Hsince, hook_count_app, Hpre. hook_count_simpl.
Qed.

Lemma demo_same_thread_is_multi_1 : is_multi demo_same_thread 1 0.
Proof. eexists. split; [vm_compute; reflexivity | reflexivity]. Qed.

Lemma demo_same_thread_is_multi_2 : is_multi demo_same_thread 2 0.
Proof. eexists. split; [vm_compute; reflexivity | reflexivity]. Qed.

Lemma multi_make_current_switch_witness :
  is_multi demo_same_thread 1 0
  /\ is_multi demo_same_thread 2 0
  /\ (1 ≠ 2)%positive
  /\ exists s2,
       (MultiContext_impl_make_current 1 0 ;;;
        MultiContext_impl_make_current 2 0) demo_same_thread = Ok tt s2
       /\ hook_count 1 (since demo_same_thread s2) = 1%nat.
Proof.
  split; [exact demo_same_thread_is_multi_1|].
  split; [exact demo_same_thread_is_multi_2|]. split; [done|].
  destruct (multi_make_current_switch 1 2 0 demo_same_thread
              demo_same_thread_is_multi_1 demo_same_thread_is_multi_2
              ltac:(done)) as (s2 & pre & H1 & _ & _ & _ & _ & H2).
  exists s2. split; [exact H1 | exact H2].
Defined.

(** ** Further properties: the facade on each class *)

Lemma is_mono_heap (s s' : state) (p : addr) :
  heap s' = heap s -> is_mono s p -> is_mono s' p.
Proof. unfold is_mono. by intros ->. Qed.

Lemma Context_make_current_mono (p : addr) (caller : thread_id) (s : state) :
  is_mono s p ->
  Context_make_current p caller s = MonoContext_impl_make_current p s.
Proof.
  intros (o & Ho & Hdyn). unfold Context_make_current, bind, class_of.
  by rewrite Ho, Hdyn.
Qed.

Lemma Context_make_current_multi (p : addr) (t caller : thread_id)
    (s : state) :
  is_multi s p t ->
  Context_make_current p caller s = MultiContext_impl_make_current p caller s.
Proof.
  intros (o & Ho & Hdyn). unfold Context_make_current at 1.
  unfold bind at 1. unfold class_of at 1. by rewrite Ho, Hdyn.
Qed.

(** What [current()] answers, read off heap and registries. *)
Lemma is_current_on_spec (s : state) (t : thread_id) (p : addr) (b : bool) :
  is_current_on s t p b
  <-> exists o,
        heap s !! p = Some o
        /\ b = match dyn o with
               | Mono => bool_decide (mono_current s = Some p)
               | Multi tp =>
                   bool_decide (t = tp /\ multi_current s !! tp = Some (Some p))
               end.
Proof.
  unfold is_current_on. split.
  - intros (s' & Hc). destruct (heap s !! p) as [o|] eqn:Ho.
    + exists o. split; [done|]. destruct (dyn o) as [|tp] eqn:Hdyn.
      * rewrite (Context_current_mono p t s) in Hc by (by exists o).
        congruence.
      * destruct (Context_current_multi p tp t s) as (s'' & Hc' & _);
          [by exists o|]. congruence.
    + unfold Context_current, bind, class_of in Hc. by rewrite Ho in Hc.
  - intros (o & Ho & ->). destruct (dyn o) as [|tp] eqn:Hdyn.
    + exists s. apply Context_current_mono. by exists o.
    + destruct (Context_current_multi p tp t s) as (s'' & Hc' & _);
        [by exists o|]. by exists s''.
Qed.

(** X2.  The two registries do not interfere: a [MonoContext_impl] and a
    [MultiContext_impl] made current one after the other on the same thread,
    in either order, are both current afterwards, the single-owner one on
    every thread. *)
Theorem mono_and_multi_both_current
    (A B : addr) (t : thread_id) (s : state) :
  is_mono s A ->
  is_multi s B t ->
  exists s1 s2,
    (Context_make_current A t ;;; Context_make_current B t) s = Ok tt s1
    /\ (Context_make_current B t ;;; Context_make_current A t) s = Ok tt s2
    /\ (forall t', is_current_on s1 t' A true)
    /\ is_current_on s1 t B true
    /\ (forall t', is_current_on s2 t' A true)
    /\ is_current_on s2 t B true.
Proof.
  intros HA HB.
  destruct (mono_make_current_trace A s) as (sA & HrA & HhA & HmA & HtA & _).
  destruct (multi_make_current_trace B t s HB) as (sB & HrB & HhB & HmB & HtB & _).
  destruct (multi_make_current_trace B t sA (is_multi_heap _ _ _ _ HhA HB))
    as (s1 & Hr1 & Hh1 & Hm1 & Ht1 & _).
  destruct (mono_make_current_trace A sB) as (s2 & Hr2 & Hh2 & Hm2 & Ht2 & _).
  destruct HA as (oA & HoA & HdA). destruct HB as (oB & HoB & HdB).
  exists s1, s2.
  split.
  { unfold bind. rewrite (Context_make_current_mono A t s) by (by exists oA).
    rewrite HrA.
    rewrite (Context_make_current_multi B t t sA)
      by (exists oB; by rewrite HhA).
    done. }
  split.
  { unfold bind. rewrite (Context_make_current_multi B t t s) by (by exists oB).
    rewrite HrB.
    rewrite (Context_make_current_mono A t sB)
      by (exists oA; by rewrite HhB).
    done. }
  split.
  { intros t'. apply is_current_on_spec. exists oA.
    split; [congruence|]. rewrite HdA.
    symmetry. apply bool_decide_eq_true. congruence. }
  split.
  { apply is_current_on_spec. exists oB. split; [congruence|]. rewrite HdB.
    symmetry. apply bool_decide_eq_true. split; [done|].
    rewrite Ht1. apply lookup_insert_eq. }
  split.
  { intros t'. apply is_current_on_spec. exists oA.
    split; [congruence|]. rewrite HdA.
    symmetry. by apply bool_decide_eq_true. }
  apply is_current_on_spec. exists oB. split; [congruence|]. rewrite HdB.
  symmetry. apply bool_decide_eq_true. split; [done|].
  rewrite Ht2, HtB. apply lookup_insert_eq.
Qed.

Lemma demo_mixed_is_mono : is_mono demo_mixed 1.
Proof. eexists. split; [vm_compute; reflexivity | reflexivity]. Qed.

Lemma demo_mixed_is_multi : is_multi demo_mixed 2 0.
Proof. eexists. split; [vm_compute; reflexivity | reflexivity]. Qed.

Lemma mono_and_multi_both_current_witness :
  is_mono demo_mixed 1
  /\ is_multi demo_mixed 2 0
  /\ exists s1,
       (Context_make_current 1 0 ;;; Context_make_current 2 0) demo_mixed
         = Ok tt s1
       /\ is_current_on s1 0 1 true
       /\ is_current_on s1 0 2 true.
Proof.
  split; [exact demo_mixed_is_mono|]. split; [exact demo_mixed_is_multi|].
  destruct (mono_and_multi_both_current 1 2 0 demo_mixed
              demo_mixed_is_mono demo_mixed_is_multi)
    as (s1 & s2 & H1 & _ & H2 & H3 & _).
  exists s1. split; [exact H1|]. split; [exact (H2 0%nat) | exact H3].
Defined.

(** ** Further properties: construction and destruction *)

(** X3.  Construction at a free address returns with the new instance
    current.  A [MonoContext_impl] is then current on every thread, no
    instance that existed before is, and the per-thread map is untouched.  A
    [MultiContext_impl] is current on the constructing thread and on no
    other; the slots of the other threads and the process-wide reference
    are untouched.  In both cases the only hook that runs is that of the
    instance the new one displaces. *)
Theorem constructors_make_current
    (gl : Driver) (p : addr) (handle : Z) (caller : thread_id) (s : state) :
  heap s !! p = None ->
  (exists s',
      exec gl caller (NewMono p handle) s = Ok RVoid s'
      /\ is_mono s' p
      /\ (forall t, is_current_on s' t p true)
      /\ (forall q t, is_mono s q -> is_current_on s' t q false)
      /\ multi_current s' = multi_current s
      /\ hooks (since s s')
         = match mono_current s with
           | Some c => if decide (c = p) then [] else [c]
           | None => []
           end)
  /\ (exists s',
        exec gl caller (NewMulti p handle) s = Ok RVoid s'
        /\ is_multi s' p caller
        /\ is_current_on s' caller p true
        /\ (forall t, t ≠ caller ->
              is_current_on s' t p false
              /\ multi_current s' !! t = multi_current s !! t)
        /\ (forall q, is_multi s q caller -> is_current_on s' caller q false)
        /\ mono_current s' = mono_current s
        /\ hooks (since s s')
           = match multi_current s !! caller with
             | Some (Some c) => if decide (c = p) then [] else [c]
             | _ => []
             end).
Proof.
  intros Hp. split.
  - unfold exec, MonoContext_ctor, MonoContext_impl_ctor, Context_impl_ctor.
    unfold bind at 1 2. unfold alloc at 1. rewrite Hp.
    match goal with
    | |- context [MonoContext_impl_make_current p ?s1] =>
        destruct (mono_make_current_trace p s1)
          as (s' & -> & Hh & Hm & Ht & Htr)
    end.
    simpl in Hh, Ht, Htr. exists s'. split; [done|].
    assert (Hlive : heap s' !! p
                    = Some (mk_impl (GL_COLOR_BUFFER_BIT gl) handle Mono))
      by (rewrite Hh; apply lookup_insert_eq).
    split; [by eexists|].
    split.
    { intros t. apply is_current_on_spec. eexists. split; [exact Hlive|].
      simpl. symmetry. by apply bool_decide_eq_true. }
    split.
    { intros q t (o & Ho & Hd). apply is_current_on_spec. exists o.
      assert (q ≠ p) by congruence.
      split; [rewrite Hh; by rewrite lookup_insert_ne|].
      rewrite Hd. symmetry. apply bool_decide_eq_false. congruence. }
    split; [done|].
    rewrite (since_app s s' _ Htr). unfold mono_make_current_events.
    destruct (mono_current s) as [c|]; [|done]. by destruct (decide (c = p)).
  - unfold exec, MultiContext_impl_ctor, Context_impl_ctor.
    unfold bind at 1 2. unfold alloc at 1. rewrite Hp.
    match goal with
    | |- context [MultiContext_impl_make_current p caller ?s1] =>
        assert (Hp1 : is_multi s1 p caller)
          by (eexists; simpl; split; [apply lookup_insert_eq|done]);
        destruct (multi_make_current_trace p caller s1 Hp1)
          as (s' & -> & Hh & Hm & Ht & Htr)
    end.
    simpl in Hh, Hm, Ht, Htr. exists s'. split; [done|].
    assert (Hlive : heap s' !! p
                    = Some (mk_impl (GL_COLOR_BUFFER_BIT gl) handle (Multi caller)))
      by (rewrite Hh; apply lookup_insert_eq).
    split; [by eexists|].
    split.
    { apply is_current_on_spec. eexists. split; [exact Hlive|].
      simpl. symmetry. apply bool_decide_eq_true. split; [done|].
      rewrite Ht. apply lookup_insert_eq. }
    split.
    { intros t Hne. split.
      - apply is_current_on_spec. eexists. split; [exact Hlive|].
        simpl. symmetry. apply bool_decide_eq_false. by intros [? _].
      - rewrite Ht. by apply lookup_insert_ne. }
    split.
    { intros q (o & Ho & Hd). apply is_current_on_spec. exists o.
      assert (q ≠ p) by congruence.
      split; [rewrite Hh; by rewrite lookup_insert_ne|].
      rewrite Hd. symmetry. apply bool_decide_eq_false. intros [_ H'].
      rewrite Ht, lookup_insert_eq in H'. congruence. }
    split; [done|].
    rewrite (since_app s s' _ Htr). unfold multi_make_current_events.
    destruct (multi_current s !! caller) as [[c|]|]; [|done|done].
    by destruct (decide (c = p)).
Qed.

Lemma constructors_make_current_witness :
  heap demo_mono !! 2%positive = None
  /\ exists s',
       exec demo_driver 0 (NewMono 2 0) demo_mono = Ok RVoid s'
       /\ is_current_on s' 0 2 true
       /\ hooks (since demo_mono s') = [1%positive].
Proof.
  assert (H : heap demo_mono !! 2%positive = None) by (vm_compute; reflexivity).
  split; [exact H|].
  destruct (proj1 (constructors_make_current demo_driver 2 0 0 demo_mono H))
    as (s' & H1 & _ & H2 & _ & _ & H3).
  exists s'. split; [exact H1|]. split; [exact (H2 0%nat) | exact H3].
Defined.

(** X4.  The destructor of a live instance returns on whatever thread it is
    called, also for a [MultiContext_impl] of another thread: it releases
    the object, runs no hook and makes no driver call, and no other instance
    changes its answer to [current()]: only the destroyed instance's own
    registration is dropped. *)
Theorem destructor_total_and_local
    (c : addr) (caller : thread_id) (s : state) (o : Context_impl) :
  heap s !! c = Some o ->
  exists s',
    Context_dtor c caller s = Ok tt s'
    /\ heap s' = delete c (heap s)
    /\ hooks (since s s') = []
    /\ gl_calls (since s s') = []
    /\ (forall q t b, q ≠ c ->
          is_current_on s t q b <-> is_current_on s' t q b).
Proof.
  intros Ho.
  assert (Hrun : exists s', Context_dtor c caller s = Ok tt s'
                            /\ hooks (since s s') = []
                            /\ gl_calls (since s s') = []).
  { unfold_ctx. rewrite Ho. simpl. destruct (dyn o) as [|t] eqn:Hdyn; simpl.
    - destruct (decide (mono_current s = Some c)); simpl;
        eexists; (split; [reflexivity|]);
        (erewrite since_app; [|simpl; try reflexivity; by rewrite app_nil_r]);
        done.
    - rewrite Ho. simpl. rewrite Hdyn. simpl.
      destruct (decide (multi_current s !! t = Some (Some c))); simpl;
        eexists; (split; [reflexivity|]);
        (erewrite since_app; [|simpl; by rewrite <- !app_assoc]); done. }
  destruct Hrun as (s' & Hrun & Hhooks & Hgl). exists s'.
  destruct (Context_dtor_effect c caller s s') as (o' & Ho' & Hh & Hreg);
    [by rewrite Hrun|].
  assert (o' = o) as -> by congruence.
  repeat (split; [done|]).
  intros q t b Hq. rewrite !is_current_on_spec, Hh.
  rewrite lookup_delete_ne by done.
  assert (Hsame : forall oq, heap s !! q = Some oq ->
    match dyn oq with
    | Mono => bool_decide (mono_current s = Some q)
    | Multi tp => bool_decide (t = tp /\ multi_current s !! tp = Some (Some q))
    end
    = match dyn oq with
      | Mono => bool_decide (mono_current s' = Some q)
      | Multi tp => bool_decide (t = tp /\ multi_current s' !! tp = Some (Some q))
      end).
  { intros oq Hoq. destruct (dyn oq) as [|tp]; apply bool_decide_ext.
    - destruct (dyn o); destruct Hreg as [Hm Ht]; rewrite Hm; [|done].
      destruct (decide (mono_current s = Some c)) as [Hc|]; [|done].
      rewrite Hc. split; congruence.
    - destruct (dyn o) as [|tc]; destruct Hreg as [Hm Ht]; rewrite Ht; [done|].
      destruct (decide (multi_current s !! tc = Some (Some c))) as [Hc|];
        [|done].
      destruct (decide (tp = tc)) as [->|Hne].
      + rewrite lookup_delete_eq, Hc. split; intros [? ?]; congruence.
      + by rewrite lookup_delete_ne. }
  split; intros (oq & Hoq & ->); exists oq; (split; [done|]);
    [apply Hsame | symmetry; apply Hsame]; done.
Qed.

Lemma demo_two_mono_live : heap demo_two_mono !! 1%positive
                           = Some (mk_impl 0x4000 0 Mono).
Proof. vm_compute. reflexivity. Qed.

Lemma destructor_total_and_local_witness :
  heap demo_two_mono !! 1%positive = Some (mk_impl 0x4000 0 Mono)
  /\ exists s',
       Context_dtor 1 7 demo_two_mono = Ok tt s'
       /\ heap s' = delete 1%positive (heap demo_two_mono).
Proof.
  split; [exact demo_two_mono_live|].
  destruct (destructor_total_and_local 1 7 demo_two_mono _ demo_two_mono_live)
    as (s' & H1 & H2 & _).
  exists s'. split; [exact H1 | exact H2].
Defined.

(** ** Further properties: the locking discipline *)

Lemma lock_discipline_app (h : option thread_id) (l k : list event) :
  lock_discipline h (l ++ k)
  = match lock_discipline h l with
    | Some h' => lock_discipline h' k
    | None => None
    end.
Proof.
  revert h. induction l as [|e l IH]; intros h; simpl; [done|].
  destruct (discipline_step h e); [apply IH|done].
Qed.

Lemma disciplined_ret {A} (h : option thread_id) (a : A) :
  disciplined h h (ret a).
Proof. intros s. exists []. by rewrite app_nil_r. Qed.

Lemma disciplined_throw {A} (h' : option thread_id) (e : exception) :
  disciplined None h' (@throw A e).
Proof. intros s. exists []. by rewrite app_nil_r. Qed.

Lemma disciplined_undefined {A} (h h' : option thread_id) :
  disciplined h h' (@undefined A).
Proof. by intros s. Qed.

Lemma disciplined_bind {A B} (h h1 h2 : option thread_id)
    (c : M A) (k : A -> M B) :
  disciplined h h1 c -> (forall a, disciplined h1 h2 (k a)) ->
  disciplined h h2 (bind c k).
Proof.
  intros Hc Hk s. unfold bind. specialize (Hc s).
  destruct (c s) as [a s1|e s1|]; [|done|done].
  destruct Hc as (tr1 & Htr1 & Hd1). specialize (Hk a s1).
  destruct (k a s1) as [b s2|e s2|]; [| |done];
    destruct Hk as (tr2 & Htr2 & Hd2); exists (tr1 ++ tr2);
    (split; [by rewrite Htr2, Htr1, app_assoc|]);
    by rewrite lock_discipline_app, Hd1.
Qed.

(** Steps that log nothing. *)
Ltac disciplined_silent :=
  let s := fresh in
  intros s; simpl;
  try match goal with |- context [heap s !! ?p] => destruct (heap s !! p) end;
  try done; exists []; simpl; by rewrite app_nil_r.

Lemma disciplined_class_of (h : option thread_id) (p : addr) :
  disciplined h h (class_of p).
Proof. unfold class_of. disciplined_silent. Qed.

Lemma disciplined_load_clear_mask (h : option thread_id) (p : addr) :
  disciplined h h (load_clear_mask p).
Proof. unfold load_clear_mask. disciplined_silent. Qed.

Lemma disciplined_load_mono (h : option thread_id) :
  disciplined h h load_mono.
Proof. unfold load_mono. disciplined_silent. Qed.

Lemma disciplined_find_multi (h : option thread_id) (t : thread_id) :
  disciplined h h (find_multi t).
Proof. unfold find_multi. disciplined_silent. Qed.

Lemma disciplined_alloc (h : option thread_id) (p : addr) (o : Context_impl) :
  disciplined h h (alloc p o).
Proof. unfold alloc. disciplined_silent. Qed.

Lemma disciplined_free (h : option thread_id) (p : addr) :
  disciplined h h (free p).
Proof. unfold free. disciplined_silent. Qed.

Lemma disciplined_lock (t : thread_id) :
  disciplined None (Some t) (emit (EvLock t)).
Proof. intros s. by exists [EvLock t]. Qed.

Lemma disciplined_unlock (t : thread_id) :
  disciplined (Some t) None (emit (EvUnlock t)).
Proof.
  intros s. exists [EvUnlock t]. split; [done|]. simpl.
  by destruct (decide (Some t = Some t)).
Qed.

Lemma disciplined_hook (h : option thread_id) (c : addr) :
  disciplined h h (Context_impl_on_made_not_current c).
Proof. intros s. by exists [EvHook c]. Qed.

Lemma disciplined_store_mono (h : option thread_id) (p : option addr) :
  disciplined h h (store_mono p).
Proof. intros s. by exists [EvStoreMono p]. Qed.

Lemma disciplined_store_multi (t : thread_id) (p : option addr) :
  disciplined (Some t) (Some t) (store_multi t p).
Proof.
  intros s. exists [EvStoreMulti t p]. split; [done|]. simpl.
  by destruct (decide (Some t = Some t)).
Qed.

Lemma disciplined_erase_multi (t' t : thread_id) :
  disciplined (Some t') (Some t') (erase_multi t).
Proof. intros s. by exists [EvEraseMulti t]. Qed.

Lemma disciplined_GL_CALL (gl : Driver) (c : gl_call) :
  disciplined None None (GL_CALL gl c).
Proof.
  intros s. unfold GL_CALL. destruct (decide _); by exists [EvGL c].
Qed.

Ltac disciplined_structure :=
  repeat first
    [ apply disciplined_ret
    | apply disciplined_throw
    | apply disciplined_undefined
    | apply disciplined_class_of
    | apply disciplined_load_clear_mask
    | apply disciplined_load_mono
    | apply disciplined_find_multi
    | apply disciplined_alloc
    | apply disciplined_free
    | apply disciplined_lock
    | apply disciplined_unlock
    | apply disciplined_hook
    | apply disciplined_store_mono
    | apply disciplined_store_multi
    | apply disciplined_erase_multi
    | apply disciplined_GL_CALL
    | eapply disciplined_bind; [|intros]
    | match goal with
      | |- disciplined _ _ (match decide (?a ≠ ?b) with _ => _ end) =>
          let Hn := fresh in
          destruct (decide (a ≠ b)) as [?|Hn];
          [|apply dec_stable in Hn; subst]
      | |- disciplined _ _ (match ?x with _ => _ end) => destruct x
      end ].

(** Every call starts and ends with the lock free and keeps the discipline
    in between. *)
Lemma disciplined_exec (gl : Driver) (caller : thread_id) (a : action) :
  disciplined None None (exec gl caller a).
Proof.
  destruct a as [| | | | | | | |T| | | | |]; try destruct T;
    unfold exec, on_live, MonoContext_ctor, MonoContext_impl_ctor,
      MultiContext_impl_ctor, Context_impl_ctor, Context_make_current,
      Context_current, Context_dtor, Context_get, Context_major_version,
      Context_minor_version, Context_clear, Context_clear_mask,
      Context_clear_color, Context_enable, Context_disable,
      Context_is_enabled, get, get_single, get_out, Context_current,
      MonoContext_impl_make_current, MonoContext_impl_current,
      MonoContext_impl_dtor, MultiContext_impl_make_current,
      MultiContext_impl_current, MultiContext_impl_dtor,
      MultiContext_impl_thread_id, Context_impl_make_current,
      Context_impl_dtor, index_multi;
    disciplined_structure.
Qed.

(** X5.  Along the whole history of any reachable state the lock is used
    correctly: it is taken only when free and released by the thread that
    took it; an entry of the per-thread map is written only by the thread
    whose entry it is, and written or erased only while the lock is held; no
    driver call is made while the lock is held; and between calls the lock
    is free. *)
Theorem reachable_lock_discipline (gl : Driver) (s : state) :
  reachable gl s -> lock_discipline None (trace s) = Some None.
Proof.
  induction 1 as [|s caller a s' _ IH Hstep]; [done|].
  unfold step in Hstep. pose proof (disciplined_exec gl caller a s) as Hd.
  destruct (exec gl caller a s) as [r s1|e s1|]; [| |done];
    injection Hstep as ->; destruct Hd as (tr & -> & Hd);
    by rewrite lock_discipline_app, IH.
Qed.

Lemma demo_multi_reachable : reachable demo_driver demo_multi.
Proof.
  apply (reachable_step demo_driver init_state 0 (NewMulti 1 0));
    [apply reachable_init|].
  unfold step. by rewrite demo_multi_constructed.
Qed.

Lemma reachable_lock_discipline_witness :
  reachable demo_driver demo_multi
  /\ lock_discipline None (trace demo_multi) = Some None.
Proof.
  split; [exact demo_multi_reachable|].
  exact (reachable_lock_discipline demo_driver demo_multi demo_multi_reachable).
Defined.

(** The checker does reject histories that break the discipline. *)
Example lock_discipline_rejects :
  lock_discipline None [EvStoreMulti 0 (Some 1%positive)] = None
  /\ lock_discipline None [EvLock 0; EvStoreMulti 1 (Some 1%positive)] = None
  /\ lock_discipline None [EvLock 0; EvGL (glClear 0); EvUnlock 0] = None
  /\ lock_discipline None [EvLock 0; EvLock 0] = None
  /\ lock_discipline None [EvLock 0; EvUnlock 1] = None.
Proof. repeat split; reflexivity. Qed.

(** ** Further properties: the stored clear mask never changes *)

Lemma keeps_masks_refl (gl : Driver) (s : state) : keeps_masks gl s s.
Proof. by intros H. Qed.

Lemma keeps_masks_trans (gl : Driver) (s1 s2 s3 : state) :
  keeps_masks gl s1 s2 -> keeps_masks gl s2 s3 -> keeps_masks gl s1 s3.
Proof. unfold keeps_masks. auto. Qed.

(** A step that leaves the heap alone keeps the masks. *)
Ltac keeps_masks_same_heap :=
  let s := fresh in let s' := fresh in let H := fresh in
  intros s s' H; simpl in H; injection H as <-; by intros ?.

Lemma keeps_masks_emit (gl : Driver) (e : event) :
  preserves (keeps_masks gl) (emit e).
Proof. keeps_masks_same_heap. Qed.

Lemma keeps_masks_store_mono (gl : Driver) (p : option addr) :
  preserves (keeps_masks gl) (store_mono p).
Proof. keeps_masks_same_heap. Qed.

Lemma keeps_masks_store_multi (gl : Driver) (t : thread_id) (p : option addr) :
  preserves (keeps_masks gl) (store_multi t p).
Proof. keeps_masks_same_heap. Qed.

Lemma keeps_masks_erase_multi (gl : Driver) (t : thread_id) :
  preserves (keeps_masks gl) (erase_multi t).
Proof. keeps_masks_same_heap. Qed.

Lemma keeps_masks_GL_CALL (gl : Driver) (c : gl_call) :
  preserves (keeps_masks gl) (GL_CALL gl c).
Proof.
  intros s s'. unfold GL_CALL. destruct (decide _); intros [= <-]; by intros ?.
Qed.

Lemma keeps_masks_free (gl : Driver) (p : addr) :
  preserves (keeps_masks gl) (free p).
Proof.
  intros s s' [= <-] H q o. simpl. intros Hq.
  apply lookup_delete_Some in Hq as [_ Hq]. by apply (H q).
Qed.

Lemma keeps_masks_Context_impl_ctor (gl : Driver) (p : addr) (handle : Z)
    (cls : impl_class) :
  preserves (keeps_masks gl) (Context_impl_ctor gl p handle cls).
Proof.
  intros s s'. unfold Context_impl_ctor, alloc.
  destruct (heap s !! p) eqn:Hp; [done|]. intros [= <-] H q o. simpl.
  destruct (decide (p = q)) as [<-|Hne].
  - rewrite lookup_insert_eq. by intros [= <-].
  - rewrite lookup_insert_ne by done. apply H.
Qed.

Lemma keeps_masks_exec (gl : Driver) (caller : thread_id) (a : action) :
  preserves (keeps_masks gl) (exec gl caller a).
Proof.
  destruct a as [| | | | | | | |T| | | | |]; try destruct T;
    unfold exec, on_live, MonoContext_ctor, MonoContext_impl_ctor,
      MultiContext_impl_ctor, Context_make_current,
      Context_current, Context_dtor, Context_get, Context_major_version,
      Context_minor_version, Context_clear, Context_clear_mask,
      Context_clear_color, Context_enable, Context_disable,
      Context_is_enabled, get, get_single, get_out, Context_current,
      MonoContext_impl_make_current, MonoContext_impl_current,
      MonoContext_impl_dtor, MultiContext_impl_make_current,
      MultiContext_impl_current, MultiContext_impl_dtor,
      MultiContext_impl_thread_id, Context_impl_make_current,
      Context_impl_on_made_not_current, Context_impl_dtor, index_multi;
    preserves_structure (keeps_masks_refl gl) (keeps_masks_trans gl)
      ltac:(first [ apply keeps_masks_Context_impl_ctor
                  | apply keeps_masks_emit
                  | apply keeps_masks_store_mono
                  | apply keeps_masks_store_multi
                  | apply keeps_masks_erase_multi
                  | apply keeps_masks_GL_CALL
                  | apply keeps_masks_free ]).
Qed.

(** X6.  Nothing in the file ever writes [_clear_mask]: at every reachable
    state each live object still stores the color-buffer bit, so the
    no-argument [clear()] of a live context always issues exactly
    [glClear(GL_COLOR_BUFFER_BIT)]. *)
Theorem clear_always_color_buffer (gl : Driver) (s : state) (this : addr) :
  reachable gl s ->
  is_Some (heap s !! this) ->
  masks_default gl s
  /\ state_after (Context_clear gl this s)
     = Some (called (glClear (GL_COLOR_BUFFER_BIT gl)) s).
Proof.
  intros Hr [o Ho].
  assert (Hm : masks_default gl s).
  { clear this o Ho. induction Hr as [|s caller a s' _ IH Hstep].
    - intros p o Hp. simpl in Hp. by rewrite lookup_empty in Hp.
    - by apply (keeps_masks_exec gl caller a s s' Hstep). }
  split; [done|].
  unfold Context_clear, bind, load_clear_mask, GL_CALL, ret, called.
  rewrite Ho, (Hm this o Ho). by destruct (decide _).
Qed.

Lemma demo_mono_reachable : reachable demo_driver demo_mono.
Proof.
  apply (reachable_step demo_driver init_state 0 (NewMono 1 0));
    [apply reachable_init|].
  unfold step. by rewrite demo_mono_constructed.
Qed.

Lemma clear_always_color_buffer_witness :
  reachable demo_driver demo_mono
  /\ is_Some (heap demo_mono !! 1%positive)
  /\ state_after (Context_clear demo_driver 1 demo_mono)
     = Some (called (glClear 0x4000) demo_mono).
Proof.
  assert (H : is_Some (heap demo_mono !! 1%positive))
    by (eexists; vm_compute; reflexivity).
  split; [exact demo_mono_reachable|]. split; [exact H|].
  exact (proj2 (clear_always_color_buffer demo_driver demo_mono 1
                  demo_mono_reachable H)).
Defined.

(** ** Further properties: when the hook runs *)

Lemma hooks_app (l k : list event) : hooks (l ++ k) = hooks l ++ hooks k.
Proof. apply omap_app. Qed.

Lemma hook_free_refl (s : state) : hook_free s s.
Proof. exists []. by rewrite app_nil_r. Qed.

Lemma hook_free_trans (s1 s2 s3 : state) :
  hook_free s1 s2 -> hook_free s2 s3 -> hook_free s1 s3.
Proof.
  intros (tr1 & H1 & Hh1) (tr2 & H2 & Hh2). exists (tr1 ++ tr2).
  split; [by rewrite H2, H1, app_assoc|]. by rewrite hooks_app, Hh1, Hh2.
Qed.

Lemma hook_free_since (s s' : state) :
  hook_free s s' -> hooks (since s s') = [].
Proof. intros (tr & Htr & Hh). by rewrite (since_app s s' tr Htr). Qed.

Lemma hook_free_emit (e : event) :
  hooks [e] = [] -> preserves hook_free (emit e).
Proof. intros He s s' [= <-]. by exists [e]. Qed.

Lemma hook_free_store_mono (p : option addr) : preserves hook_free (store_mono p).
Proof. intros s s' [= <-]. by exists [EvStoreMono p]. Qed.

Lemma hook_free_erase_multi (t : thread_id) :
  preserves hook_free (erase_multi t).
Proof. intros s s' [= <-]. by exists [EvEraseMulti t]. Qed.

Lemma hook_free_free (p : addr) : preserves hook_free (free p).
Proof. intros s s' [= <-]. exists []. simpl. by rewrite app_nil_r. Qed.

Lemma hook_free_GL_CALL (gl : Driver) (c : gl_call) :
  preserves hook_free (GL_CALL gl c).
Proof.
  intros s s'. unfold GL_CALL.
  destruct (decide _); intros [= <-]; by exists [EvGL c].
Qed.

(** Only construction and [make_current()] can run a hook. *)
Lemma hook_free_exec (gl : Driver) (caller : thread_id) (a : action) :
  quiet a = true -> preserves hook_free (exec gl caller a).
Proof.
  intros Hq.
  destruct a as [| | | | | | | |T| | | | |]; try done; try destruct T;
    unfold exec, on_live, Context_current, Context_dtor, Context_get,
      Context_major_version, Context_minor_version, Context_clear,
      Context_clear_mask, Context_clear_color, Context_enable,
      Context_disable, Context_is_enabled, get, get_single, get_out,
      Context_current, MonoContext_impl_current, MonoContext_impl_dtor,
      MultiContext_impl_current, MultiContext_impl_dtor,
      MultiContext_impl_thread_id, Context_impl_dtor;
    preserves_structure hook_free_refl hook_free_trans
      ltac:(first [ apply hook_free_emit; reflexivity
                  | apply hook_free_store_mono
                  | apply hook_free_erase_multi
                  | apply hook_free_GL_CALL
                  | apply hook_free_free ]).
Qed.

Lemma hooks_mono_make_current_events (this : addr) (cur : option addr) (c : addr) :
  c ∈ hooks (mono_make_current_events this cur) -> cur = Some c /\ c ≠ this.
Proof.
  unfold mono_make_current_events. destruct cur as [c'|]; simpl.
  - destruct (decide (c' = this)); simpl.
    + by intros ?%not_elem_of_nil.
    + intros ->%list_elem_of_singleton. done.
  - by intros ?%not_elem_of_nil.
Qed.

Lemma hooks_multi_make_current_events
    (this : addr) (t : thread_id) (slot : option (option addr)) (c : addr) :
  c ∈ hooks (multi_make_current_events this t slot) ->
  slot = Some (Some c) /\ c ≠ this.
Proof.
  unfold multi_make_current_events. destruct slot as [[c'|]|]; simpl.
  - destruct (decide (c' = this)); simpl.
    + by intros ?%not_elem_of_nil.
    + intros ->%list_elem_of_singleton. done.
  - by intros ?%not_elem_of_nil.
  - by intros ?%not_elem_of_nil.
Qed.

Lemma hooks_make_current_events_length
    (this : addr) (t : thread_id) (cur : option addr)
    (slot : option (option addr)) :
  (length (hooks (mono_make_current_events this cur)) <= 1)%nat
  /\ (length (hooks (multi_make_current_events this t slot)) <= 1)%nat.
Proof.
  unfold mono_make_current_events, multi_make_current_events. split.
  - destruct cur as [c|]; simpl; [destruct (decide _)|]; simpl; lia.
  - destruct slot as [[c|]|]; simpl; [destruct (decide _)| |]; simpl; lia.
Qed.

(** The instance displaced from the process-wide reference. *)
Lemma displaced_mono (s s' : state) (this c : addr) :
  registry_ok s ->
  (forall q o, q ≠ this -> heap s !! q = Some o -> heap s' !! q = Some o) ->
  mono_current s' = Some this ->
  c ∈ hooks (mono_make_current_events this (mono_current s)) ->
  is_Some (heap s !! c) /\ is_Some (heap s' !! c) /\ registered s c
  /\ forall t, is_current_on s' t c false.
Proof.
  intros [Hmono _] Hheap Hcur Hc.
  apply hooks_mono_make_current_events in Hc as [Hc Hne].
  destruct (Hmono c Hc) as (o & Ho & Hd).
  split; [by exists o|]. split; [exists o; by apply Hheap|].
  split; [by left|]. intros t. apply is_current_on_spec. exists o.
  split; [by apply Hheap|]. rewrite Hd. symmetry.
  apply bool_decide_eq_false. congruence.
Qed.

(** The instance displaced from the slot of thread [t]. *)
Lemma displaced_multi (s s' : state) (this c : addr) (t : thread_id) :
  registry_ok s ->
  (forall q o, q ≠ this -> heap s !! q = Some o -> heap s' !! q = Some o) ->
  multi_current s' = <[t := Some this]> (multi_current s) ->
  c ∈ hooks (multi_make_current_events this t (multi_current s !! t)) ->
  is_Some (heap s !! c) /\ is_Some (heap s' !! c) /\ registered s c
  /\ forall t', is_current_on s' t' c false.
Proof.
  intros [_ Hmulti] Hheap Hcur Hc.
  apply hooks_multi_make_current_events in Hc as [Hc Hne].
  destruct (Hmulti t _ Hc) as (c' & [= <-] & o & Ho & Hd).
  split; [by exists o|]. split; [exists o; by apply Hheap|].
  split; [right; by exists t|]. intros t'. apply is_current_on_spec. exists o.
  split; [by apply Hheap|]. rewrite Hd. symmetry.
  apply bool_decide_eq_false. intros [_ H]. rewrite Hcur in H.
  rewrite lookup_insert_eq in H. congruence.
Qed.

(** What the three calls that can run a hook do, in terms of the events of
    [make_current]. *)
Lemma exec_NewMono_effect (gl : Driver) (caller : thread_id) (p : addr)
    (handle : Z) (s s' : state) :
  step gl caller (NewMono p handle) s s' ->
  heap s !! p = None
  /\ heap s' = <[p := mk_impl (GL_COLOR_BUFFER_BIT gl) handle Mono]> (heap s)
  /\ mono_current s' = Some p
  /\ since s s' = mono_make_current_events p (mono_current s).
Proof.
  unfold step, exec, MonoContext_ctor, MonoContext_impl_ctor, Context_impl_ctor.
  unfold bind at 1 2. unfold alloc at 1.
  destruct (heap s !! p) eqn:Hp; [done|].
  match goal with
  | |- context [MonoContext_impl_make_current p ?s1] =>
      destruct (mono_make_current_trace p s1) as (s2 & -> & Hh & Hm & _ & Htr)
  end.
  simpl. intros [= <-]. repeat split; try done. by apply since_app.
Qed.

Lemma exec_NewMulti_effect (gl : Driver) (caller : thread_id) (p : addr)
    (handle : Z) (s s' : state) :
  step gl caller (NewMulti p handle) s s' ->
  heap s !! p = None
  /\ heap s' = <[p := mk_impl (GL_COLOR_BUFFER_BIT gl) handle (Multi caller)]>
                 (heap s)
  /\ multi_current s' = <[caller := Some p]> (multi_current s)
  /\ since s s'
     = multi_make_current_events p caller (multi_current s !! caller).
Proof.
  unfold step, exec, MultiContext_impl_ctor, Context_impl_ctor.
  unfold bind at 1 2. unfold alloc at 1.
  destruct (heap s !! p) eqn:Hp; [done|].
  match goal with
  | |- context [MultiContext_impl_make_current p caller ?s1] =>
      assert (Hp1 : is_multi s1 p caller)
        by (eexists; simpl; split; [apply lookup_insert_eq|done]);
      destruct (multi_make_current_trace p caller s1 Hp1)
        as (s2 & -> & Hh & _ & Hm & Htr)
  end.
  simpl. intros [= <-]. repeat split; try done. by apply since_app.
Qed.

Lemma exec_MakeCurrent_effect (gl : Driver) (caller : thread_id) (c : addr)
    (s s' : state) :
  step gl caller (MakeCurrent c) s s' ->
  heap s' = heap s
  /\ ((is_mono s c /\ mono_current s' = Some c
       /\ since s s' = mono_make_current_events c (mono_current s))
      \/ (is_multi s c caller
          /\ multi_current s' = <[caller := Some c]> (multi_current s)
          /\ since s s'
             = multi_make_current_events c caller (multi_current s !! caller))
      \/ ((exists t, is_multi s c t /\ caller ≠ t) /\ s' = s)).
Proof.
  unfold step, exec. unfold bind at 1.
  destruct (heap s !! c) as [o|] eqn:Ho.
  - destruct (dyn o) as [|t] eqn:Hd.
    + assert (Hc : is_mono s c) by (by exists o).
      rewrite (Context_make_current_mono c caller s Hc).
      destruct (mono_make_current_trace c s) as (s2 & -> & Hh & Hm & _ & Htr).
      simpl. intros [= <-]. split; [done|]. left.
      repeat split; try done. by apply since_app.
    + assert (Hc : is_multi s c t) by (by exists o).
      rewrite (Context_make_current_multi c t caller s Hc).
      destruct (decide (caller = t)) as [->|Hne].
      * destruct (multi_make_current_trace c t s Hc)
          as (s2 & -> & Hh & _ & Hm & Htr).
        simpl. intros [= <-]. split; [done|]. right. left.
        repeat split; try done. by apply since_app.
      * destruct (multi_make_current_other_thread c t caller s Hc Hne)
          as (what & ->).
        simpl. intros [= <-]. split; [done|]. right. right. split; [|done].
        by exists t.
  - unfold Context_make_current, bind, class_of. by rewrite Ho.
Qed.

(** X7.  In any call made at a reachable state at most one hook runs, and
    only construction and [make_current()] run one at all.  The instance
    whose hook runs is live before and after the call, was registered as
    current before it, and is current on no thread after it: the hook is
    never reached through a dangling reference. *)
Theorem hook_runs_on_live_displaced_instance
    (gl : Driver) (caller : thread_id) (a : action) (s s' : state) :
  reachable gl s ->
  step gl caller a s s' ->
  (length (hooks (since s s')) <= 1)%nat
  /\ (quiet a = true -> hooks (since s s') = [])
  /\ forall c, c ∈ hooks (since s s') ->
       is_Some (heap s !! c) /\ is_Some (heap s' !! c) /\ registered s c
       /\ forall t, is_current_on s' t c false.
Proof.
  intros Hr Hstep. pose proof (reachable_registry_ok gl s Hr) as Hok.
  destruct (quiet a) eqn:Hq.
  - rewrite (hook_free_since s s' (hook_free_exec gl caller a Hq s s' Hstep)).
    split; [simpl; lia|]. split; [done|]. by intros c ?%not_elem_of_nil.
  - split; [|split; [done|]].
    + destruct a; try done.
      * apply exec_NewMono_effect in Hstep as (_ & _ & _ & ->).
        apply (hooks_make_current_events_length p 0 _ None).
      * apply exec_NewMulti_effect in Hstep as (_ & _ & _ & ->).
        apply (hooks_make_current_events_length p caller None).
      * apply exec_MakeCurrent_effect in Hstep
          as (_ & [(_ & _ & ->)|[(_ & _ & ->)|(_ & ->)]]).
        -- apply (hooks_make_current_events_length c 0 _ None).
        -- apply (hooks_make_current_events_length c caller None).
        -- rewrite (since_app s s []) by (by rewrite app_nil_r). simpl. lia.
    + intros c' Hc'. destruct a; try done.
      * apply exec_NewMono_effect in Hstep as (Hp & Hh & Hm & Hs).
        rewrite Hs in Hc'. apply (displaced_mono s s' p c' Hok); try done.
        intros q o Hne Hq'. rewrite Hh. by rewrite lookup_insert_ne.
      * apply exec_NewMulti_effect in Hstep as (Hp & Hh & Hm & Hs).
        rewrite Hs in Hc'. apply (displaced_multi s s' p c' caller Hok); try done.
        intros q o Hne Hq'. rewrite Hh. by rewrite lookup_insert_ne.
      * apply exec_MakeCurrent_effect in Hstep
          as (Hh & [(_ & Hm & Hs)|[(_ & Hm & Hs)|(_ & ->)]]).
        -- rewrite Hs in Hc'. apply (displaced_mono s s' c c' Hok); try done.
           intros q o _ Hq'. by rewrite Hh.
        -- rewrite Hs in Hc'.
           apply (displaced_multi s s' c c' caller Hok); try done.
           intros q o _ Hq'. by rewrite Hh.
        -- rewrite (since_app s s []) in Hc' by (by rewrite app_nil_r).
           by apply not_elem_of_nil in Hc'.
Qed.

Lemma hook_runs_on_live_displaced_instance_witness :
  reachable demo_driver demo_mono
  /\ (exists s', step demo_driver 0 (NewMono 2 0) demo_mono s'
                 /\ (length (hooks (since demo_mono s')) <= 1)%nat).
Proof.
  split; [exact demo_mono_reachable|].
  assert (Hs : exists s', step demo_driver 0 (NewMono 2 0) demo_mono s')
    by (eexists; unfold step; vm_compute; reflexivity).
  destruct Hs as (s' & Hs). exists s'. split; [exact Hs|].
  exact (proj1 (hook_runs_on_live_displaced_instance demo_driver 0
                  (NewMono 2 0) demo_mono s' demo_mono_reachable Hs)).
Defined.

(** ** Further properties: queries, guarded reads and driver calls *)

(** X8.  A call that only asks a question or talks to the driver (anything
    but construction, [make_current()] and destruction) leaves heap and
    registries as they were, whether it returns or throws: no hook runs and
    every instance answers [current()] on every thread as before. *)
Theorem observers_keep_currency
    (gl : Driver) (caller : thread_id) (a : action) (s s' : state) :
  observer a = true ->
  step gl caller a s s' ->
  same_registry s s'
  /\ hooks (since s s') = []
  /\ forall t c b, is_current_on s t c b <-> is_current_on s' t c b.
Proof.
  intros Ha Hstep.
  assert (Hq : quiet a = true) by (by destruct a).
  assert (Hd : forall c, a ≠ Delete c) by (intros c ->; done).
  pose proof (same_registry_exec gl caller a Hq Hd s s' Hstep) as Hsame.
  split; [done|].
  split; [apply hook_free_since, (hook_free_exec gl caller a Hq s s' Hstep)|].
  destruct Hsame as (Hh & Hm & Ht). intros t c b.
  rewrite !is_current_on_spec, Hh, Hm, Ht. done.
Qed.

Lemma observers_keep_currency_witness :
  observer (IsCurrent 1) = true
  /\ exists s',
       step demo_driver 0 (IsCurrent 1) demo_multi s'
       /\ same_registry demo_multi s'.
Proof.
  split; [reflexivity|].
  assert (Hs : exists s', step demo_driver 0 (IsCurrent 1) demo_multi s')
    by (eexists; unfold step; vm_compute; reflexivity).
  destruct Hs as (s' & Hs). exists s'. split; [exact Hs|].
  exact (proj1 (observers_keep_currency demo_driver 0 (IsCurrent 1)
                  demo_multi s' eq_refl Hs)).
Defined.

(** [current()] itself logs at most the lock and its release. *)
Lemma Context_current_effect (c : addr) (t : thread_id) (s s1 : state)
    (b : bool) :
  Context_current c t s = Ok b s1 ->
  same_registry s s1 /\ gl_calls (since s s1) = [].
Proof.
  intros Hc. split.
  { apply (same_registry_Context_current c t s s1). by rewrite Hc. }
  revert Hc. unfold_ctx. destruct (heap s !! c) as [o|] eqn:Ho; [|done]. simpl.
  destruct (dyn o) as [|tc] eqn:Hd; simpl.
  - intros [= _ <-]. by rewrite (since_app s s []) by (by rewrite app_nil_r).
  - rewrite Ho. simpl. rewrite Hd. simpl.
    destruct (decide (t ≠ tc)); simpl; intros [= _ <-].
    + by rewrite (since_app s s []) by (by rewrite app_nil_r).
    + erewrite since_app; [|simpl; by rewrite <- app_assoc]. done.
Qed.

(** X9.  A parameter read ([get<T>], [major_version()], [minor_version()])
    on a context that is not current on the calling thread throws the
    inactive-context exception before anything reaches the driver: no
    driver call is logged and heap and registries are untouched. *)
Theorem inactive_read_never_reaches_driver
    (gl : Driver) (caller : thread_id) (a : action) (c : addr) (q : gl_call)
    (s : state) :
  guarded_read gl a = Some (c, q) ->
  is_current_on s caller c false ->
  exists s',
    exec gl caller a s
      = Throw (gl_exception "can't get param from inactive context") s'
    /\ gl_calls (since s s') = []
    /\ same_registry s s'.
Proof.
  intros Ha (s1 & Hc). destruct (Context_current_effect c caller s s1 _ Hc)
    as (Hsame & Hgl).
  exists s1. split; [|done].
  destruct a; try done; simpl in Ha; injection Ha as -> <-;
    unfold exec, Context_get, Context_major_version, Context_minor_version;
    unfold bind; rewrite get_unfold, Hc; done.
Qed.

Lemma inactive_read_never_reaches_driver_witness :
  guarded_read demo_driver (MajorVersion 1)
    = Some (1%positive, glGetIntegerv 0x821B)
  /\ is_current_on demo_multi 1 1 false
  /\ exists s',
       exec demo_driver 1 (MajorVersion 1) demo_multi
         = Throw (gl_exception "can't get param from inactive context") s'
       /\ gl_calls (since demo_multi s') = [].
Proof.
  assert (Hc : is_current_on demo_multi 1 1 false)
    by (exists demo_multi; vm_compute; reflexivity).
  split; [reflexivity|]. split; [exact Hc|].
  destruct (inactive_read_never_reaches_driver demo_driver 1 (MajorVersion 1)
              1 (glGetIntegerv 0x821B) demo_multi eq_refl Hc)
    as (s' & H1 & H2 & _).
  exists s'. split; [exact H1 | exact H2].
Defined.

(** X10.  Whenever [major_version()] or [minor_version()] returns, the
    context was current, exactly one [glGetIntegerv] query for the
    respective parameter was issued, and the result is the driver's [int]
    converted to [unsigned]: it lies in [0, 2^32) and is the driver's value
    modulo 2^32, so a negative driver value comes back as a large one. *)
Theorem version_queries_unsigned
    (gl : Driver) (this : addr) (caller : thread_id) (s s' : state) (v : Z) :
  (Context_major_version gl this caller s = Ok v s' ->
   0 <= v < 2 ^ 32
   /\ exists z s1,
        Context_current this caller s = Ok true s1
        /\ written (drv_reply gl (trace s1) (glGetIntegerv (GL_MAJOR_VERSION gl)))
           = [z]
        /\ v = z mod 2 ^ 32
        /\ s' = called (glGetIntegerv (GL_MAJOR_VERSION gl)) s1)
  /\ (Context_minor_version gl this caller s = Ok v s' ->
      0 <= v < 2 ^ 32
      /\ exists z s1,
           Context_current this caller s = Ok true s1
           /\ written (drv_reply gl (trace s1) (glGetIntegerv (GL_MINOR_VERSION gl)))
              = [z]
           /\ v = z mod 2 ^ 32
           /\ s' = called (glGetIntegerv (GL_MINOR_VERSION gl)) s1).
Proof.
  assert (H : forall param,
    (v0 <- get gl T_int this caller param ;; ret (to_unsigned v0)) s = Ok v s' ->
    0 <= v < 2 ^ 32
    /\ exists z s1,
         Context_current this caller s = Ok true s1
         /\ written (drv_reply gl (trace s1) (glGetIntegerv param)) = [z]
         /\ v = z mod 2 ^ 32
         /\ s' = called (glGetIntegerv param) s1).
  { intros param. unfold bind. rewrite get_unfold.
    destruct (Context_current this caller s) as [[|] s1|e s1|]; try done.
    simpl. destruct (decide _); [|done].
    destruct (written _) as [|z [|z' rest]] eqn:Hw; try done.
    unfold ret, to_unsigned. intros [= <- <-].
    split; [apply Z.mod_pos_bound; lia|]. by exists z, s1. }
  split; apply H.
Qed.

Lemma version_queries_unsigned_witness :
  Context_major_version demo_driver 1 0 demo_mono
    = Ok 4 (called (glGetIntegerv 0x821B) demo_mono)
  /\ 0 <= 4 < 2 ^ 32.
Proof.
  assert (H : Context_major_version demo_driver 1 0 demo_mono
              = Ok 4 (called (glGetIntegerv 0x821B) demo_mono))
    by (vm_compute; reflexivity).
  split; [exact H|].
  exact (proj1 (proj1 (version_queries_unsigned demo_driver 1 0 demo_mono
                         _ 4) H)).
Defined.

(** X11.  Clearing and the capability calls are not guarded by the currency
    check: on any live context, current or not, [clear()], [clear(mask)],
    [clear_color(c)], [enable], [disable] and [is_enabled] issue their one
    driver call; they return when the driver signals no error and otherwise
    throw the driver's error, never the inactive-context exception. *)
Theorem driver_calls_not_guarded
    (gl : Driver) (caller : thread_id) (a : action) (c : addr) (q : gl_call)
    (s : state) (o : Context_impl) :
  heap s !! c = Some o ->
  unguarded_call (_clear_mask o) a = Some (c, q) ->
  (error (drv_reply gl (trace s) q) = 0 ->
     exists rv, exec gl caller a s = Ok rv (called q s))
  /\ (error (drv_reply gl (trace s) q) ≠ 0 ->
        exec gl caller a s
        = Throw (driver_error (error (drv_reply gl (trace s) q))) (called q s))
  /\ (forall what s', exec gl caller a s ≠ Throw (gl_exception what) s').
Proof.
  intros Ho Ha.
  assert (H : exists k : reply -> retval,
    exec gl caller a s
    = if decide (error (drv_reply gl (trace s) q) = 0)
      then Ok (k (drv_reply gl (trace s) q)) (called q s)
      else Throw (driver_error (error (drv_reply gl (trace s) q))) (called q s)).
  { destruct a; try done; simpl in Ha; injection Ha as -> <-;
      unfold exec, on_live, Context_clear, Context_clear_mask,
        Context_clear_color, Context_enable, Context_disable,
        Context_is_enabled, bind, class_of, load_clear_mask, GL_CALL, ret,
        called; rewrite Ho; simpl;
      [ exists (fun _ => RVoid) | exists (fun _ => RVoid)
      | exists (fun _ => RVoid) | exists (fun _ => RVoid)
      | exists (fun _ => RVoid)
      | exists (fun r => RBool (bool_of_GLboolean (returned r))) ];
      by destruct (decide _). }
  destruct H as (k & ->).
  destruct (decide (error (drv_reply gl (trace s) q) = 0)); repeat split;
    try done; eauto.
Qed.

Lemma driver_calls_not_guarded_witness :
  heap demo_multi !! 1%positive = Some (mk_impl 0x4000 0 (Multi 0))
  /\ is_current_on demo_multi 1 1 false
  /\ exists rv,
       exec demo_driver 1 (Enable 1 0x0BE2) demo_multi
       = Ok rv (called (glEnable 0x0BE2) demo_multi).
Proof.
  assert (Ho : heap demo_multi !! 1%positive = Some (mk_impl 0x4000 0 (Multi 0)))
    by (vm_compute; reflexivity).
  split; [exact Ho|].
  split; [exists demo_multi; vm_compute; reflexivity|].
  apply (proj1 (driver_calls_not_guarded demo_driver 1 (Enable 1 0x0BE2) 1
                  (glEnable 0x0BE2) demo_multi _ Ho eq_refl)).
  reflexivity.
Defined.

(** X12.  [clear_color(c)] followed by [clear()] on a live context: when
    the driver accepts both calls, what it receives is [glClearColor] with
    exactly the four components of [c], then [glClear] with the stored
    mask, and nothing else; when it rejects the first, the exception
    propagates and [glClear] is never issued. *)
Theorem clear_color_then_clear
    (gl : Driver) (this : addr) (col : color) (s : state) (o : Context_impl) :
  heap s !! this = Some o ->
  (error (drv_reply gl (trace s)
            (glClearColor (col_r col) (col_g col) (col_b col) (col_a col))) = 0 ->
   error (drv_reply gl
            (trace s ++ [EvGL (glClearColor (col_r col) (col_g col)
                                 (col_b col) (col_a col))])
            (glClear (_clear_mask o))) = 0 ->
   exists s',
     (Context_clear_color gl this col ;;; Context_clear gl this) s = Ok tt s'
     /\ since s s'
        = [EvGL (glClearColor (col_r col) (col_g col) (col_b col) (col_a col));
           EvGL (glClear (_clear_mask o))])
  /\ (error (drv_reply gl (trace s)
               (glClearColor (col_r col) (col_g col) (col_b col) (col_a col))) ≠ 0 ->
      exists e s',
        (Context_clear_color gl this col ;;; Context_clear gl this) s
          = Throw (driver_error e) s'
        /\ gl_calls (since s s')
           = [glClearColor (col_r col) (col_g col) (col_b col) (col_a col)]).
Proof.
  intros Ho. unfold Context_clear_color, Context_clear, bind, load_clear_mask,
    GL_CALL, ret. split.
  - intros H1 H2. destruct (decide _); [|done]. simpl. rewrite Ho.
    destruct (decide _); [|done].
    eexists. split; [reflexivity|]. apply since_app. simpl.
    by rewrite <- app_assoc.
  - intros H1. destruct (decide _); [done|].
    eexists _, _. split; [reflexivity|].
    erewrite since_app; [|reflexivity]. done.
Qed.

Lemma clear_color_then_clear_witness :
  heap demo_mono !! 1%positive = Some (mk_impl 0x4000 0 Mono)
  /\ exists s',
       (Context_clear_color demo_driver 1 (mk_color 1 2 3 4) ;;;
        Context_clear demo_driver 1) demo_mono = Ok tt s'
       /\ since demo_mono s' = [EvGL (glClearColor 1 2 3 4); EvGL (glClear 0x4000)].
Proof.
  assert (Ho : heap demo_mono !! 1%positive = Some (mk_impl 0x4000 0 Mono))
    by (vm_compute; reflexivity).
  split; [exact Ho|].
  apply (proj1 (clear_color_then_clear demo_driver 1 (mk_color 1 2 3 4)
                  demo_mono _ Ho)); reflexivity.
Defined.

(** ** Further properties: a thread's slot belongs to that thread *)

Lemma slot_frame_refl (caller : thread_id) (s : state) : slot_frame caller s s.
Proof. by intros t _. Qed.

Lemma slot_frame_trans (caller : thread_id) (s1 s2 s3 : state) :
  slot_frame caller s1 s2 -> slot_frame caller s2 s3 -> slot_frame caller s1 s3.
Proof. intros H12 H23 t Ht. by rewrite (H23 t Ht), (H12 t Ht). Qed.

Lemma slot_frame_same (caller : thread_id) (s s' : state) :
  same_registry s s' -> slot_frame caller s s'.
Proof. intros (_ & _ & Hm) t _. by rewrite Hm. Qed.

Lemma slot_frame_emit (caller : thread_id) (e : event) :
  preserves (slot_frame caller) (emit e).
Proof. intros s s' [= <-]. by intros t _. Qed.

Lemma slot_frame_store_mono (caller : thread_id) (p : option addr) :
  preserves (slot_frame caller) (store_mono p).
Proof. intros s s' [= <-]. by intros t _. Qed.

Lemma slot_frame_store_multi (caller : thread_id) (p : option addr) :
  preserves (slot_frame caller) (store_multi caller p).
Proof. intros s s' [= <-] t Ht. simpl. by apply lookup_insert_ne. Qed.

Lemma slot_frame_alloc (caller : thread_id) (p : addr) (o : Context_impl) :
  preserves (slot_frame caller) (alloc p o).
Proof.
  intros s s'. unfold alloc. destruct (heap s !! p); [done|].
  intros [= <-]. by intros t _.
Qed.

(** Construction and [make_current()] write no slot but the caller's. *)
Lemma slot_frame_exec (gl : Driver) (caller : thread_id) (a : action) :
  (forall c, a ≠ Delete c) -> preserves (slot_frame caller) (exec gl caller a).
Proof.
  intros Hd. destruct (quiet a) eqn:Hq.
  - apply (preserves_weaken same_registry _ _ (slot_frame_same caller)).
    by apply same_registry_exec.
  - destruct a; try done;
      unfold exec, MonoContext_ctor, MonoContext_impl_ctor,
        MultiContext_impl_ctor, Context_impl_ctor, Context_make_current,
        MonoContext_impl_make_current, MultiContext_impl_make_current,
        MultiContext_impl_thread_id, Context_impl_make_current,
        Context_impl_on_made_not_current, index_multi;
      preserves_structure (slot_frame_refl caller) (slot_frame_trans caller)
        ltac:(first
          [ apply slot_frame_emit
          | apply slot_frame_store_mono
          | apply slot_frame_alloc
          | apply slot_frame_store_multi
          | match goal with
            | H : ¬ (caller ≠ ?x) |- _ => apply dec_stable in H; subst x
            end ]).
Qed.

(** X13.  A thread's slot in the map is written only by calls of that
    thread: construction, [make_current()] and every query made by a thread
    leave the slots of all other threads as they were.  The destructor is
    the one exception: it has no thread check, so called from any thread it
    may clear the slot of the thread its object is bound to, and only
    that slot. *)
Theorem slots_belong_to_their_thread
    (gl : Driver) (caller : thread_id) (a : action) (s s' : state) :
  step gl caller a s s' ->
  ((forall c, a ≠ Delete c) ->
     forall t, t ≠ caller -> multi_current s' !! t = multi_current s !! t)
  /\ (forall c o, a = Delete c -> heap s !! c = Some o ->
        forall t, dyn o ≠ Multi t ->
                  multi_current s' !! t = multi_current s !! t).
Proof.
  intros Hstep. split.
  - intros Hd. by apply (slot_frame_exec gl caller a Hd s s' Hstep).
  - intros c o -> Ho t Ht.
    assert (Hd : state_after (Context_dtor c caller s) = Some s').
    { revert Hstep. unfold step, exec, bind.
      by destruct (Context_dtor c caller s) as [[] s1|e s1|]. }
    destruct (Context_dtor_effect c caller s s' Hd) as (o' & Ho' & _ & Hreg).
    assert (o' = o) as -> by congruence.
    destruct (dyn o) as [|tc]; destruct Hreg as [_ ->]; [done|].
    destruct (decide _); [|done]. apply lookup_delete_ne. congruence.
Qed.

(** The exception is real: thread 1 destroying the object bound to thread 0
    clears the slot of thread 0. *)
Example foreign_destructor_clears_slot :
  exists s',
    step demo_driver 1 (Delete 1) demo_multi s'
    /\ multi_current demo_multi !! 0%nat = Some (Some 1%positive)
    /\ multi_current s' !! 0%nat = None.
Proof. eexists. unfold step. vm_compute. repeat split; reflexivity. Qed.

Lemma slots_belong_to_their_thread_witness :
  exists s',
    step demo_driver 1 (NewMulti 2 0) demo_multi s'
    /\ multi_current s' !! 0%nat = multi_current demo_multi !! 0%nat.
Proof.
  assert (Hs : exists s', step demo_driver 1 (NewMulti 2 0) demo_multi s')
    by (eexists; unfold step; vm_compute; reflexivity).
  destruct Hs as (s' & Hs). exists s'. split; [exact Hs|].
  apply (proj1 (slots_belong_to_their_thread demo_driver 1 (NewMulti 2 0)
                  demo_multi s' Hs)); [intros c; discriminate | lia].
Defined.
